(** * Chunked binary transfer in [src/util.js]

    A shallow embedding of the [Util] class of the SkyWay JavaScript SDK,
    restricted to what the chunking code touches: the constructor, [chunk]
    (the Fragmenter) and [joinArrayBuffers] (the byte-combination primitive),
    followed by the properties of the chunked transfer protocol.  The other
    functions of the class that compute something come after them: the
    validation of ids and keys, [randomId], [binaryStringToArrayBuffer],
    [setLogLevel] and the three log functions.

    Conventions of the embedding.
    - A JavaScript number is a [number]: an integer, [NaN] or an infinity.
      Finite numbers are integers in the safe range, where [+], [<] and
      [Math.min] are exact.  [Math.ceil(a / b)] is exact there as well: a
      quotient that is not an integer lies at least [1/b] away from the next
      integers, which is more than half a unit in the last place of a double
      below [2^53 / b].  Negative zero is identified with zero.
    - A property that was never assigned reads as [Undefined].
    - [Blob] and [ArrayBuffer] contents are lists of bytes.  A [Blob] is an
      immutable host object; [slice] follows the File API, its arguments
      being converted as WebIDL [[Clamp] long long].
    - A [while] loop takes fuel and answers [None] when the fuel runs out. *)

From Stdlib Require Import Bool Ascii String ZArith List Lia.
From Stdlib.Strings Require Import Byte.
Import ListNotations.

Local Open Scope Z_scope.

(** ** JavaScript numbers and values *)

Inductive number : Type :=
| Fin (z : Z)
| NaN
| PosInf
| NegInf.

Inductive value : Type :=
| Undefined
| Num (n : number).

(** [ToNumber] of ECMAScript, on the values of this model. *)
Definition ToNumber (v : value) : number :=
  match v with
  | Undefined => NaN
  | Num n => n
  end.

(** [x + y] on numbers. *)
Definition js_add (x y : number) : number :=
  match x, y with
  | NaN, _ | _, NaN => NaN
  | Fin a, Fin b => Fin (a + b)
  | PosInf, NegInf | NegInf, PosInf => NaN
  | PosInf, _ | _, PosInf => PosInf
  | NegInf, _ | _, NegInf => NegInf
  end.

(** [x < y] on numbers; any comparison with [NaN] is false. *)
Definition js_lt (x y : number) : bool :=
  match x, y with
  | NaN, _ | _, NaN => false
  | Fin a, Fin b => a <? b
  | NegInf, NegInf => false
  | NegInf, _ => true
  | PosInf, _ => false
  | Fin _, PosInf => true
  | Fin _, NegInf => false
  end.

(** [Math.min(x, y)]. *)
Definition Math_min (x y : number) : number :=
  match x, y with
  | NaN, _ | _, NaN => NaN
  | NegInf, _ | _, NegInf => NegInf
  | PosInf, n | n, PosInf => n
  | Fin a, Fin b => Fin (Z.min a b)
  end.

(** Ceiling of the rational [a / b], for [b <> 0]. *)
Definition ceil_quot (a b : Z) : Z := - ((- a) / b).

(** [Math.ceil(x / y)]: the division and the rounding of line 250, taken
    together so that finite numbers stay integers. *)
Definition Math_ceil_div (x y : number) : number :=
  match x, y with
  | NaN, _ | _, NaN => NaN
  | Fin a, Fin b =>
      if b =? 0 then
        if a =? 0 then NaN else if 0 <? a then PosInf else NegInf
      else Fin (ceil_quot a b)
  | Fin _, (PosInf | NegInf) => Fin 0
  | (PosInf | NegInf), (PosInf | NegInf) => NaN
  | PosInf, Fin b => if b <? 0 then NegInf else PosInf
  | NegInf, Fin b => if b <? 0 then PosInf else NegInf
  end.

(** The postfix increment [x++] stores [ToNumber(x) + 1]. *)
Definition js_incr (v : value) : value := Num (js_add (ToNumber v) (Fin 1)).

(** ** Blobs *)

Definition Blob : Type := list byte.

Definition blob_size (blob : Blob) : Z := Z.of_nat (length blob).

(** WebIDL conversion of an argument declared [[Clamp] long long]: the
    bounds of a 64-bit type are those of the safe integers, and [NaN]
    becomes 0. *)
Definition clamp_long_long (x : number) : Z :=
  match x with
  | NaN => 0
  | PosInf => 2 ^ 53 - 1
  | NegInf => - (2 ^ 53) + 1
  | Fin z => Z.min (Z.max z (- (2 ^ 53) + 1)) (2 ^ 53 - 1)
  end.

(** A negative position counts from the end of the blob. *)
Definition relative_pos (size p : Z) : Z :=
  if p <? 0 then Z.max (size + p) 0 else Z.min p size.

(** [blob.slice(start, end)] of the File API. *)
Definition blob_slice (blob : Blob) (start end_ : number) : Blob :=
  let size := blob_size blob in
  let relativeStart := relative_pos size (clamp_long_long start) in
  let relativeEnd := relative_pos size (clamp_long_long end_) in
  let span := Z.max (relativeEnd - relativeStart) 0 in
  firstn (Z.to_nat span) (skipn (Z.to_nat relativeStart) blob).

(** ** The [Util] instance *)

(** The three constructors that the browser detection looks up on [window]. *)
Record Window : Type := mkWindow {
  mozRTCPeerConnection : bool;
  webkitRTCPeerConnection : bool;
  RTCPeerConnection : bool
}.

Record Config : Type := mkConfig {
  iceServers : list (string * string);
  iceTransportPolicy : string
}.

(** The fields the constructor assigns, and the two properties that only
    [chunk] mentions, [chunkedMTU] and [chunkedCount].  The functions [pack]
    and [unpack] of js-binarypack are left out. *)
Record Util : Type := mkUtil {
  CLOUD_HOST : string;
  CLOUD_PORT : Z;
  TURN_HOST : string;
  TURN_PORT : Z;
  debug : bool;
  setZeroTimeout : value;
  LOG_LEVELS : list (string * Z);
  MESSAGE_TYPES : list string;
  chunkedBrowsers : list (string * Z);
  maxChunkSize : Z;
  reconnectionAttempts : Z;
  sendInterval : Z;
  defaultConfig : Config;
  browser : string;
  supports : option bool;
  _logLevel : Z;
  chunkedMTU : value;
  chunkedCount : value
}.

Definition LogLevel : list (string * Z) :=
  [("NONE", 0); ("ERROR", 1); ("WARN", 2); ("FULL", 3)]%string.

Definition MessageTypes : list string :=
  ["OPEN"; "ERROR"; "OFFER"; "ANSWER"; "LEAVE"; "EXPIRE"; "CANDIDATE";
   "SFU_JOIN"; "SFU_OFFER_REQUEST"; "SFU_OFFER"; "SFU_ANSWER"; "SFU_LEAVE";
   "SFU_ANSWER"; "SFU_USER_JOIN"; "SFU_USER_LEAVE"; "SFU_DATA"; "SFU_LOG";
   "MESH_JOIN"; "MESH_USER_JOIN"; "MESH_USER_LIST_REQUEST"; "MESH_USER_LIST";
   "MESH_OFFER"; "MESH_ANSWER"; "MESH_CANDIDATE"; "MESH_LEAVE"; "MESH_DATA";
   "MESH_LOG"; "MESH_USER_LEAVE"]%string.

Definition detect_browser (window : Window) : string :=
  if mozRTCPeerConnection window then "Firefox"
  else if webkitRTCPeerConnection window then "Chrome"
  else if RTCPeerConnection window then "Supported"
  else "Unsupported".

(** [new Util()] (lines 56 to 146).  [window] is the host's global object
    and [probe] the outcome of the data channel feature probe, [None] for
    the empty object.  The constructor assigns neither [chunkedMTU] nor
    [chunkedCount]. *)
Definition constructor (window : Window) (probe : option bool) : Util :=
  {| CLOUD_HOST := "skyway.io";
     CLOUD_PORT := 443;
     TURN_HOST := "turn.skyway.io";
     TURN_PORT := 443;
     debug := false;
     setZeroTimeout := Undefined;
     LOG_LEVELS := LogLevel;
     MESSAGE_TYPES := MessageTypes;
     chunkedBrowsers := [("Chrome"%string, 1)];
     maxChunkSize := 16300;
     reconnectionAttempts := 2;
     sendInterval := 1;
     defaultConfig :=
       {| iceServers := [("urls", "stun:stun.skyway.io:3478");
                         ("url", "stun:stun.skyway.io:3478")]%string;
          iceTransportPolicy := "all" |};
     browser := detect_browser window;
     supports := probe;
     _logLevel := 0;
     chunkedMTU := Undefined;
     chunkedCount := Undefined |}.

(** The assignment [this.chunkedCount = v]. *)
Definition set_chunkedCount (v : value) (this : Util) : Util :=
  {| CLOUD_HOST := CLOUD_HOST this;
     CLOUD_PORT := CLOUD_PORT this;
     TURN_HOST := TURN_HOST this;
     TURN_PORT := TURN_PORT this;
     debug := debug this;
     setZeroTimeout := setZeroTimeout this;
     LOG_LEVELS := LOG_LEVELS this;
     MESSAGE_TYPES := MESSAGE_TYPES this;
     chunkedBrowsers := chunkedBrowsers this;
     maxChunkSize := maxChunkSize this;
     reconnectionAttempts := reconnectionAttempts this;
     sendInterval := sendInterval this;
     defaultConfig := defaultConfig this;
     browser := browser this;
     supports := supports this;
     _logLevel := _logLevel this;
     chunkedMTU := chunkedMTU this;
     chunkedCount := v |}.

(** The assignment [util.chunkedMTU = v], as a caller of the module would
    write it. *)
Definition set_chunkedMTU (v : value) (this : Util) : Util :=
  {| CLOUD_HOST := CLOUD_HOST this;
     CLOUD_PORT := CLOUD_PORT this;
     TURN_HOST := TURN_HOST this;
     TURN_PORT := TURN_PORT this;
     debug := debug this;
     setZeroTimeout := setZeroTimeout this;
     LOG_LEVELS := LOG_LEVELS this;
     MESSAGE_TYPES := MESSAGE_TYPES this;
     chunkedBrowsers := chunkedBrowsers this;
     maxChunkSize := maxChunkSize this;
     reconnectionAttempts := reconnectionAttempts this;
     sendInterval := sendInterval this;
     defaultConfig := defaultConfig this;
     browser := browser this;
     supports := supports this;
     _logLevel := _logLevel this;
     chunkedMTU := v;
     chunkedCount := chunkedCount this |}.

(** ** [chunk] (lines 245 to 269) *)

Record Chunk : Type := mkChunk {
  parentMsgId : value;
  chunkIndex : Z;
  chunkData : Blob;
  totalChunks : number
}.

(** The variables the loop assigns. *)
Record LoopState : Type := mkLoop {
  chunks : list Chunk;
  start : number;
  index : Z
}.

(** One pass through the body of the [while] loop (lines 252 to 265). *)
Definition loop_body (this : Util) (blob : Blob) (total : number)
    (st : LoopState) : LoopState :=
  let size := blob_size blob in
  let end_ := Math_min (Fin size) (js_add (start st) (ToNumber (chunkedMTU this))) in
  let blobSlice := blob_slice blob (start st) end_ in
  let chunk := {| parentMsgId := chunkedCount this;
                  chunkIndex := index st;
                  chunkData := blobSlice;
                  totalChunks := total |} in
  {| chunks := chunks st ++ [chunk];
     start := end_;
     index := index st + 1 |}.

(** [while (start < size) { ... }], [None] when the fuel is used up. *)
Fixpoint while_loop (fuel : nat) (this : Util) (blob : Blob) (total : number)
    (st : LoopState) : option LoopState :=
  if js_lt (start st) (Fin (blob_size blob)) then
    match fuel with
    | O => None
    | S fuel' => while_loop fuel' this blob total (loop_body this blob total st)
    end
  else Some st.

(** The state in which the loop is entered. *)
Definition loop_init : LoopState := {| chunks := []; start := Fin 0; index := 0 |}.

(** [chunk(blob)]: the returned array and the instance after the call. *)
Definition chunk (fuel : nat) (this : Util) (blob : Blob)
    : option (list Chunk * Util) :=
  let size := blob_size blob in
  let total := Math_ceil_div (Fin size) (ToNumber (chunkedMTU this)) in
  match while_loop fuel this blob total loop_init with
  | None => None
  | Some st =>
      Some (chunks st, set_chunkedCount (js_incr (chunkedCount this)) this)
  end.

(** ** [joinArrayBuffers] (lines 276 to 287) *)

Definition ArrayBuffer : Type := list byte.

Definition byteLength (buffer : ArrayBuffer) : Z := Z.of_nat (length buffer).

(** [new Uint8Array(size)] is filled with zeros. *)
Definition Uint8Array_new (size : Z) : list byte := repeat x00 (Z.to_nat size).

(** [target.set(source, offset)]; a source that does not fit raises a
    [RangeError], here [None]. *)
Definition Uint8Array_set (target source : list byte) (offset : Z)
    : option (list byte) :=
  if (0 <=? offset) && (offset + byteLength source <=? byteLength target) then
    Some (firstn (Z.to_nat offset) target ++ source
            ++ skipn (Z.to_nat (offset + byteLength source)) target)
  else None.

(** The [for ... of] loop over the buffers (lines 282 to 285). *)
Fixpoint join_loop (buffers : list ArrayBuffer) (tmpArray : list byte)
    (currPos : Z) : option (list byte) :=
  match buffers with
  | [] => Some tmpArray
  | buffer :: rest =>
      match Uint8Array_set tmpArray buffer currPos with
      | None => None
      | Some tmpArray' => join_loop rest tmpArray' (currPos + byteLength buffer)
      end
  end.

Definition joinArrayBuffers (buffers : list ArrayBuffer) : option ArrayBuffer :=
  let size := fold_left (fun sum buffer => sum + byteLength buffer) buffers 0 in
  let tmpArray := Uint8Array_new size in
  join_loop buffers tmpArray 0.

(** [blobToArrayBuffer] hands the bytes of the blob to its callback. *)
Definition blobToArrayBuffer (blob : Blob) : ArrayBuffer := blob.

(** A freshly constructed instance in a Chrome-like host. *)
Definition fresh : Util :=
  constructor {| mozRTCPeerConnection := false;
                 webkitRTCPeerConnection := true;
                 RTCPeerConnection := true |} (Some false).

(** The instance used in the examples: a fresh one whose [chunkedMTU] was
    set to [s] by the caller. *)
Definition with_mtu (s : Z) : Util := set_chunkedMTU (Num (Fin s)) fresh.

(** The instances [this] and [this'] agree on every field other than
    [chunkedCount]. *)
Definition same_except_chunkedCount (this this' : Util) : Prop :=
  CLOUD_HOST this' = CLOUD_HOST this
  /\ CLOUD_PORT this' = CLOUD_PORT this
  /\ TURN_HOST this' = TURN_HOST this
  /\ TURN_PORT this' = TURN_PORT this
  /\ debug this' = debug this
  /\ setZeroTimeout this' = setZeroTimeout this
  /\ LOG_LEVELS this' = LOG_LEVELS this
  /\ MESSAGE_TYPES this' = MESSAGE_TYPES this
  /\ chunkedBrowsers this' = chunkedBrowsers this
  /\ maxChunkSize this' = maxChunkSize this
  /\ reconnectionAttempts this' = reconnectionAttempts this
  /\ sendInterval this' = sendInterval this
  /\ defaultConfig this' = defaultConfig this
  /\ browser this' = browser this
  /\ supports this' = supports this
  /\ _logLevel this' = _logLevel this
  /\ chunkedMTU this' = chunkedMTU this.

(** ** The output of the loop, as a relation

    [windows id blob s total a i tail]: with a fragment size [s], entered
    with [start = a] and [index = i], the loop appends [tail] to [chunks]
    before it stops.  Each constructor is one outcome of the test
    [start < size]; [while_loop_windows] below relates it to [while_loop]. *)
Inductive windows (id : value) (blob : Blob) (s : Z) (total : number)
    : Z -> Z -> list Chunk -> Prop :=
| windows_stop : forall a i,
    blob_size blob <= a ->
    windows id blob s total a i []
| windows_next : forall a i tail,
    a < blob_size blob ->
    windows id blob s total (Z.min (blob_size blob) (a + s)) (i + 1) tail ->
    windows id blob s total a i
      ({| parentMsgId := id;
          chunkIndex := i;
          chunkData := blob_slice blob (Fin a)
                         (Fin (Z.min (blob_size blob) (a + s)));
          totalChunks := total |} :: tail).

(** ** Strings

    A JavaScript string is the list of its UTF-16 code units. *)

Definition jsstring : Type := list N.

Definition code (c : Ascii.ascii) : N := Ascii.N_of_ascii c.

(** The string written as a literal in the source. *)
Definition str (s : string) : jsstring := map code (String.list_ascii_of_string s).

(** [s.substr(start, length)] for arguments that are not negative. *)
Definition substr (s : jsstring) (start_ length_ : nat) : jsstring :=
  firstn length_ (skipn start_ s).

(** ** Regular expressions

    The two patterns of the file use character classes, sequence,
    repetition and the anchors [^] and [$] only; without the multiline flag
    the anchors make [exec] succeed exactly when the whole string belongs to
    the language of the pattern.  [Alt] and [Void] are there for the
    derivatives. *)

Inductive regex : Type :=
| Void
| Eps
| Class (ranges : list (N * N))
| Seq (r1 r2 : regex)
| Alt (r1 r2 : regex)
| Star (r : regex).

(** [r+] and [r{n}]. *)
Definition Plus (r : regex) : regex := Seq r (Star r).

Fixpoint Rep (n : nat) (r : regex) : regex :=
  match n with
  | O => Eps
  | S n' => Seq r (Rep n' r)
  end.

Definition in_range (c : N) (r : N * N) : bool :=
  ((fst r <=? c) && (c <=? snd r))%N.

Definition in_class (ranges : list (N * N)) (c : N) : bool :=
  existsb (in_range c) ranges.

Definition range (lo hi : Ascii.ascii) : N * N := (code lo, code hi).

Definition single (c : Ascii.ascii) : N * N := (code c, code c).

(** The strings a pattern stands for. *)
Inductive lang : regex -> jsstring -> Prop :=
| lang_Eps : lang Eps []
| lang_Class : forall ranges c,
    in_class ranges c = true -> lang (Class ranges) [c]
| lang_Seq : forall r1 r2 s1 s2,
    lang r1 s1 -> lang r2 s2 -> lang (Seq r1 r2) (s1 ++ s2)
| lang_Alt_l : forall r1 r2 s, lang r1 s -> lang (Alt r1 r2) s
| lang_Alt_r : forall r1 r2 s, lang r2 s -> lang (Alt r1 r2) s
| lang_Star_nil : forall r, lang (Star r) []
| lang_Star_cons : forall r s1 s2,
    lang r s1 -> lang (Star r) s2 -> lang (Star r) (s1 ++ s2).

Fixpoint nullable (r : regex) : bool :=
  match r with
  | Void => false
  | Eps => true
  | Class _ => false
  | Seq r1 r2 => nullable r1 && nullable r2
  | Alt r1 r2 => nullable r1 || nullable r2
  | Star _ => true
  end.

(** The pattern for what may follow the code unit [c]. *)
Fixpoint deriv (c : N) (r : regex) : regex :=
  match r with
  | Void => Void
  | Eps => Void
  | Class ranges => if in_class ranges c then Eps else Void
  | Seq r1 r2 =>
      if nullable r1 then Alt (Seq (deriv c r1) r2) (deriv c r2)
      else Seq (deriv c r1) r2
  | Alt r1 r2 => Alt (deriv c r1) (deriv c r2)
  | Star r1 => Seq (deriv c r1) (Star r1)
  end.

(** Whether [/^r$/.exec(s)] finds a match. *)
Fixpoint regex_exec (r : regex) (s : jsstring) : bool :=
  match s with
  | [] => nullable r
  | c :: s' => regex_exec (deriv c r) s'
  end.

(** ** [validateId] and [validateKey] (lines 217 to 230) *)

Definition alnum_ranges : list (N * N) :=
  [range "A" "Z"; range "a" "z"; range "0" "9"]%char.

(** [/^[A-Za-z0-9_-]+(?:[ _-][A-Za-z0-9]+)*$/] *)
Definition ID_REGEX : regex :=
  Seq (Plus (Class (alnum_ranges ++ [single "_"; single "-"]%char)))
      (Star (Seq (Class [single " "; single "_"; single "-"]%char)
                 (Plus (Class alnum_ranges)))).

Definition key_ranges : list (N * N) := [range "a" "z"; range "0" "9"]%char.

(** [/^[a-z0-9]{8}(-[a-z0-9]{4}){3}-[a-z0-9]{12}$/] *)
Definition KEY_REGEX : regex :=
  Seq (Rep 8 (Class key_ranges))
      (Seq (Rep 3 (Seq (Class [single "-"%char]) (Rep 4 (Class key_ranges))))
           (Seq (Class [single "-"%char]) (Rep 12 (Class key_ranges)))).

(** [!s] for an argument that is a string or, when left out, [undefined]. *)
Definition js_not (s : option jsstring) : bool :=
  match s with
  | None => true
  | Some [] => true
  | Some (_ :: _) => false
  end.

(** The functions return [true], the array of the match or [null]; the
    model keeps whether that value is truthy. *)
Definition validateId (id : option jsstring) : bool :=
  js_not id
  || match id with
     | Some s => regex_exec ID_REGEX s
     | None => false
     end.

Definition validateKey (key : option jsstring) : bool :=
  js_not key
  || match key with
     | Some s => regex_exec KEY_REGEX s
     | None => false
     end.

(** ** [randomId] (lines 345 to 352)

    [randomString36] is what [Math.random().toString(36)] returned. *)
Definition randomId (randomString36 : jsstring) : jsstring :=
  let keyLength := 16%nat in
  let randString := randomString36 ++ str "0000000000000000000" in
  substr randString 2 keyLength.

(** ** [binaryStringToArrayBuffer] (lines 333 to 339) *)

(** [s.charCodeAt(i)] is [NaN] outside the string. *)
Definition charCodeAt (s : jsstring) (i : nat) : number :=
  match nth_error s i with
  | Some c => Fin (Z.of_N c)
  | None => NaN
  end.

(** [x & 0xff]; the operand [NaN] counts as 0. *)
Definition js_and_ff (x : number) : Z :=
  match x with
  | Fin z => Z.land z 255
  | _ => 0
  end.

(** The conversion of a number stored into a [Uint8Array]. *)
Definition ToUint8 (z : Z) : byte :=
  match Byte.of_N (Z.to_N (z mod 256)) with
  | Some b => b
  | None => x00
  end.

(** [array[i] = v]; a store outside a typed array does nothing. *)
Fixpoint Uint8Array_store (array : list byte) (i : nat) (v : byte) : list byte :=
  match array, i with
  | [], _ => []
  | _ :: rest, O => v :: rest
  | b :: rest, S i' => b :: Uint8Array_store rest i' v
  end.

Definition binaryStringToArrayBuffer (binary : jsstring) : ArrayBuffer :=
  let byteArray := Uint8Array_new (Z.of_nat (length binary)) in
  fold_left
    (fun byteArray i =>
       Uint8Array_store byteArray i (ToUint8 (js_and_ff (charCodeAt binary i))))
    (seq 0 (length binary)) byteArray.

(** [blobToBinaryString] hands its callback the string that has one code
    unit per byte of the blob. *)
Definition blobToBinaryString (blob : Blob) : jsstring := map Byte.to_N blob.

(** ** [setLogLevel] (lines 152 to 177) *)

(** [StrWhiteSpaceChar] of ECMAScript: white space and line terminators. *)
Definition is_whitespace (c : N) : bool :=
  in_class [(9, 13); (32, 32); (160, 160); (5760, 5760); (8192, 8202);
            (8232, 8233); (8239, 8239); (8287, 8287); (12288, 12288);
            (65279, 65279)]%N c.

Fixpoint trim_left (s : jsstring) : jsstring :=
  match s with
  | c :: rest => if is_whitespace c then trim_left rest else s
  | [] => []
  end.

Definition is_digit (c : N) : bool := in_range c (48, 57)%N.

Fixpoint take_digits (s : jsstring) : jsstring :=
  match s with
  | c :: rest => if is_digit c then c :: take_digits rest else []
  | [] => []
  end.

Definition digits_value (digits : jsstring) : Z :=
  fold_left (fun acc c => acc * 10 + (Z.of_N c - 48)) digits 0.

(** [parseInt(s, 10)].  A finite result is the integer the digits denote;
    as a double it would be rounded above [2^53], which no comparison with
    a small integer can tell. *)
Definition parseInt (s : jsstring) : number :=
  let S := trim_left s in
  let sign := match S with
              | 45%N :: _ => -1
              | _ => 1
              end in
  let S := match S with
           | 45%N :: rest => rest
           | 43%N :: rest => rest
           | _ => S
           end in
  match take_digits S with
  | [] => NaN
  | digits => Fin (sign * digits_value digits)
  end.

(** The decimal digits of [n >= 0], most significant first. *)
Fixpoint decimal_digits (fuel : nat) (n : Z) (acc : jsstring) : jsstring :=
  let acc' := (48 + Z.to_N (n mod 10))%N :: acc in
  match fuel with
  | O => acc'
  | S fuel' => if n <? 10 then acc' else decimal_digits fuel' (n / 10) acc'
  end.

Definition decimal (n : Z) : jsstring :=
  decimal_digits (Z.to_nat (Z.log2 n)) n [].

(** [ToString] of a number, for integers below [10^21]. *)
Definition ToString_number (x : number) : jsstring :=
  match x with
  | Fin z => if z <? 0 then 45%N :: decimal (- z) else decimal z
  | NaN => str "NaN"
  | PosInf => str "Infinity"
  | NegInf => str "-Infinity"
  end.

(** What [setLogLevel] is called with: nothing, a number, a string, or an
    item of an [Enum], which has a [key] and a numeric [value] and whose
    [toString] is its key. *)
Inductive Level : Type :=
| level_undefined
| level_number (n : number)
| level_string (s : jsstring)
| level_item (key : string) (value_ : Z).

Definition ToString_level (level : Level) : jsstring :=
  match level with
  | level_undefined => str "undefined"
  | level_number n => ToString_number n
  | level_string s => s
  | level_item key _ => str key
  end.

(** [LogLevel.KEY.value]; the keys the file uses are all in [LogLevel]. *)
Definition LogLevel_value (key : string) : Z :=
  match find (fun item => String.eqb (fst item) key) LogLevel with
  | Some item => snd item
  | None => 0
  end.

(** The assignment [this._logLevel = v]. *)
Definition set_logLevel (v : Z) (this : Util) : Util :=
  {| CLOUD_HOST := CLOUD_HOST this;
     CLOUD_PORT := CLOUD_PORT this;
     TURN_HOST := TURN_HOST this;
     TURN_PORT := TURN_PORT this;
     debug := debug this;
     setZeroTimeout := setZeroTimeout this;
     LOG_LEVELS := LOG_LEVELS this;
     MESSAGE_TYPES := MESSAGE_TYPES this;
     chunkedBrowsers := chunkedBrowsers this;
     maxChunkSize := maxChunkSize this;
     reconnectionAttempts := reconnectionAttempts this;
     sendInterval := sendInterval this;
     defaultConfig := defaultConfig this;
     browser := browser this;
     supports := supports this;
     _logLevel := v;
     chunkedMTU := chunkedMTU this;
     chunkedCount := chunkedCount this |}.

(** [setLogLevel(level)]; [None] is the [TypeError] of reading [value] off
    [undefined]. *)
Definition setLogLevel (level : Level) (this : Util) : option Util :=
  match level with
  | level_undefined => None
  | _ =>
      let level :=
        match level with
        | level_item _ v => if v =? 0 then level else level_number (Fin v)
        | _ => level
        end in
      let debugLevel := parseInt (ToString_level level) in
      Some (match debugLevel with
            | Fin 0 => set_logLevel (LogLevel_value "NONE") this
            | Fin 1 => set_logLevel (LogLevel_value "ERROR") this
            | Fin 2 => set_logLevel (LogLevel_value "WARN") this
            | Fin 3 => set_logLevel (LogLevel_value "FULL") this
            | _ => set_logLevel (LogLevel_value "NONE") this
            end)
  end.

(** ** [warn], [error] and [log] (lines 182 to 210) *)

Definition LOG_PREFIX : string := "SkyWayJS: ".

Inductive ConsoleMethod : Type :=
| console_warn
| console_error
| console_log.

(** An argument handed to the console: the prefix or one of the caller's. *)
Inductive LogArg (A : Type) : Type :=
| log_text (s : string)
| log_arg (a : A).

Arguments log_text {A} s.
Arguments log_arg {A} a.

(** The calls the console has received, oldest first. *)
Definition Console (A : Type) : Type := list (ConsoleMethod * list (LogArg A)).

(** [copy.unshift(LOG_PREFIX); console.method.apply(console, copy)] *)
Definition console_apply {A : Type} (method : ConsoleMethod)
    (arguments : list A) (console : Console A) : Console A :=
  console ++ [(method, log_text LOG_PREFIX :: map log_arg arguments)].

Definition warn {A : Type} (this : Util) (arguments : list A)
    (console : Console A) : Console A :=
  if LogLevel_value "WARN" <=? _logLevel this
  then console_apply console_warn arguments console
  else console.

Definition error {A : Type} (this : Util) (arguments : list A)
    (console : Console A) : Console A :=
  if LogLevel_value "ERROR" <=? _logLevel this
  then console_apply console_error arguments console
  else console.

Definition log {A : Type} (this : Util) (arguments : list A)
    (console : Console A) : Console A :=
  if LogLevel_value "FULL" <=? _logLevel this
  then console_apply console_log arguments console
  else console.

(** ** Arithmetic of the ceiling *)

Lemma ceil_quot_spec (a b : Z) :
  0 < b -> (ceil_quot a b - 1) * b < a <= ceil_quot a b * b.
Proof.
  intros Hb. unfold ceil_quot.
  pose proof (Z.mul_div_le (- a) b Hb).
  pose proof (Z.mul_succ_div_gt (- a) b Hb).
  set (q := - a / b) in *. clearbody q. nia.
Qed.

Lemma ceil_quot_unique (a b n : Z) :
  0 < b -> (n - 1) * b < a <= n * b -> n = ceil_quot a b.
Proof.
  intros Hb Hn. pose proof (ceil_quot_spec a b Hb).
  set (c := ceil_quot a b) in *. clearbody c. nia.
Qed.

Lemma ceil_quot_add_div (a b : Z) :
  0 < b -> ceil_quot a b = (a + b - 1) / b.
Proof.
  intros Hb. symmetry. apply ceil_quot_unique; trivial.
  pose proof (Z.mul_div_le (a + b - 1) b Hb).
  pose proof (Z.mul_succ_div_gt (a + b - 1) b Hb).
  set (q := (a + b - 1) / b) in *. clearbody q. nia.
Qed.

(** ** Slices inside the blob *)

Lemma blob_size_nonneg (blob : Blob) : 0 <= blob_size blob.
Proof. unfold blob_size. lia. Qed.

Lemma blob_slice_inside (blob : Blob) (a e : Z) :
  blob_size blob <= 2 ^ 53 - 1 ->
  0 <= a <= e -> e <= blob_size blob ->
  blob_slice blob (Fin a) (Fin e)
  = firstn (Z.to_nat (e - a)) (skipn (Z.to_nat a) blob).
Proof.
  intros Hsafe Ha He. unfold blob_slice, clamp_long_long, relative_pos.
  assert (H53 : 0 < 2 ^ 53) by reflexivity.
  set (top := 2 ^ 53) in *. clearbody top.
  replace (Z.min (Z.max a (- top + 1)) (top - 1)) with a by lia.
  replace (Z.min (Z.max e (- top + 1)) (top - 1)) with e by lia.
  destruct (Z.ltb_spec a 0) as [?|_]; [lia|].
  destruct (Z.ltb_spec e 0) as [?|_]; [lia|].
  replace (Z.min a (blob_size blob)) with a by lia.
  replace (Z.min e (blob_size blob)) with e by lia.
  replace (Z.max (e - a) 0) with (e - a) by lia. reflexivity.
Qed.

Lemma firstn_skipn_glue {A : Type} (l : list A) (a n : nat) :
  firstn n (skipn a l) ++ skipn (a + n) l = skipn a l.
Proof.
  rewrite Nat.add_comm, <- skipn_skipn. apply firstn_skipn.
Qed.

(** ** The loop with an integer fragment size *)

Section IntegerSize.

Variables (this : Util) (blob : Blob) (s : Z).
Hypothesis Hmtu : chunkedMTU this = Num (Fin s).

Lemma loop_body_Fin (total : number) (cs : list Chunk) (a i : Z) :
  loop_body this blob total {| chunks := cs; start := Fin a; index := i |}
  = {| chunks :=
         cs ++ [{| parentMsgId := chunkedCount this;
                   chunkIndex := i;
                   chunkData := blob_slice blob (Fin a)
                                  (Fin (Z.min (blob_size blob) (a + s)));
                   totalChunks := total |}];
       start := Fin (Z.min (blob_size blob) (a + s));
       index := i + 1 |}.
Proof. unfold loop_body. cbn [start index chunks]. rewrite Hmtu. reflexivity. Qed.

Lemma Math_ceil_div_Fin (a : Z) :
  s <> 0 ->
  Math_ceil_div (Fin a) (ToNumber (chunkedMTU this)) = Fin (ceil_quot a s).
Proof.
  intros Hs. rewrite Hmtu. cbn. destruct (Z.eqb_spec s 0); [contradiction|reflexivity].
Qed.

(** With a fragment size of zero or less the test [start < size] stays
    true: the position never gets above 0. *)
Lemma while_loop_stuck (total : number) (fuel : nat) :
  s <= 0 -> 0 < blob_size blob ->
  forall cs a i, a <= 0 ->
    while_loop fuel this blob total {| chunks := cs; start := Fin a; index := i |}
    = None.
Proof.
  intros Hs Hsize. induction fuel as [|fuel IH]; intros cs a i Ha.
  - cbn. destruct (Z.ltb_spec a (blob_size blob)); [reflexivity|lia].
  - cbn [while_loop start]. cbn [js_lt].
    destruct (Z.ltb_spec a (blob_size blob)); [|lia].
    rewrite loop_body_Fin. apply IH. lia.
Qed.

Hypothesis Hs : 0 < s.

(** The loop stops once the fuel covers the bytes that are left, and what
    it appends is described by [windows]. *)
Lemma while_loop_windows (total : number) (fuel : nat) :
  forall cs a i,
    a <= blob_size blob ->
    (Z.to_nat (blob_size blob - a) <= fuel)%nat ->
    exists tail,
      while_loop fuel this blob total
        {| chunks := cs; start := Fin a; index := i |}
      = Some {| chunks := cs ++ tail;
                start := Fin (blob_size blob);
                index := i + Z.of_nat (length tail) |}
      /\ windows (chunkedCount this) blob s total a i tail.
Proof.
  induction fuel as [|fuel IH]; intros cs a i Ha Hfuel.
  - exists []. assert (a = blob_size blob) by lia. subst a.
    cbn. rewrite Z.ltb_irrefl, app_nil_r, Z.add_0_r.
    split; [reflexivity|]. constructor. lia.
  - cbn [while_loop start]. cbn [js_lt].
    destruct (Z.ltb_spec a (blob_size blob)) as [Hlt|Hge].
    + rewrite loop_body_Fin.
      destruct (IH (cs ++ [{| parentMsgId := chunkedCount this;
                              chunkIndex := i;
                              chunkData := blob_slice blob (Fin a)
                                (Fin (Z.min (blob_size blob) (a + s)));
                              totalChunks := total |}])
                  (Z.min (blob_size blob) (a + s)) (i + 1))
        as (tail & Hrun & Hwin); [lia|lia|].
      eexists (_ :: tail). split.
      * rewrite Hrun. rewrite <- app_assoc. cbn [app length].
        do 2 f_equal. lia.
      * constructor; assumption.
    + exists []. assert (a = blob_size blob) by lia. subst a.
      rewrite app_nil_r, Z.add_0_r. split; [reflexivity|].
      constructor. lia.
Qed.

(** [chunk] returns, and its array is the [windows] from position 0. *)
Lemma chunk_windows (fuel : nat) :
  (length blob <= fuel)%nat ->
  exists cs,
    chunk fuel this blob
    = Some (cs, set_chunkedCount (js_incr (chunkedCount this)) this)
    /\ windows (chunkedCount this) blob s
         (Fin (ceil_quot (blob_size blob) s)) 0 0 cs.
Proof.
  intros Hfuel. unfold chunk. rewrite Math_ceil_div_Fin by lia.
  destruct (while_loop_windows (Fin (ceil_quot (blob_size blob) s)) fuel
              [] 0 0) as (tail & Hrun & Hwin).
  - apply blob_size_nonneg.
  - unfold blob_size. lia.
  - exists tail. unfold loop_init. rewrite Hrun. split; [reflexivity|assumption].
Qed.

Section Windows.

Variables (id : value) (total : number).

Lemma windows_at_end (a i : Z) (tail : list Chunk) :
  windows id blob s total a i tail -> blob_size blob <= a -> tail = [].
Proof. intros Hwin Ha. inversion Hwin; subst; [reflexivity|lia]. Qed.

Lemma windows_fields (a i : Z) (tail : list Chunk) :
  windows id blob s total a i tail ->
  Forall (fun c => parentMsgId c = id /\ totalChunks c = total) tail.
Proof. induction 1; constructor; auto. Qed.

Lemma windows_index (a i : Z) (tail : list Chunk) :
  windows id blob s total a i tail ->
  map chunkIndex tail
  = map (fun k => i + Z.of_nat k) (seq 0 (length tail)).
Proof.
  induction 1 as [|a i tail _ _ IH]; [reflexivity|].
  cbn [map length seq chunkIndex]. f_equal; [lia|].
  rewrite IH, <- seq_shift, map_map.
  apply map_ext. intros k. lia.
Qed.

(** The number of windows is the ceiling of the bytes left over [s]. *)
Lemma windows_count (a i : Z) (tail : list Chunk) :
  windows id blob s total a i tail ->
  a <= blob_size blob ->
  (Z.of_nat (length tail) - 1) * s < blob_size blob - a
    <= Z.of_nat (length tail) * s.
Proof.
  induction 1 as [|a i tail Hlt _ IH]; intros Ha.
  - cbn [length]. lia.
  - cbn [length]. rewrite Nat2Z.inj_succ.
    specialize (IH ltac:(lia)).
    set (n := Z.of_nat (length tail)) in *.
    assert (0 <= n) by (subst n; lia). clearbody n.
    destruct (Z.min_spec (blob_size blob) (a + s)) as [[? E]|[? E]];
      rewrite E in IH.
    * assert (n = 0) by nia. subst n. lia.
    * lia.
Qed.

Hypothesis Hsafe : blob_size blob <= 2 ^ 53 - 1.

Lemma windows_concat (a i : Z) (tail : list Chunk) :
  windows id blob s total a i tail ->
  0 <= a <= blob_size blob ->
  concat (map chunkData tail) = skipn (Z.to_nat a) blob.
Proof.
  induction 1 as [a i Hge|a i tail Hlt _ IH]; intros Ha.
  - cbn. symmetry. apply skipn_all2. unfold blob_size in *. lia.
  - cbn [map concat chunkData].
    rewrite IH by lia. rewrite blob_slice_inside by lia.
    set (e := Z.min (blob_size blob) (a + s)).
    replace (Z.to_nat e) with (Z.to_nat a + Z.to_nat (e - a))%nat by lia.
    apply firstn_skipn_glue.
Qed.

(** Every window holds at most [s] bytes, and exactly [s] unless it is
    the last one. *)
Lemma windows_sizes (a i : Z) (tail : list Chunk) :
  windows id blob s total a i tail ->
  0 <= a <= blob_size blob ->
  forall c, In c tail ->
    blob_size (chunkData c) <= s
    /\ (chunkIndex c <> i + Z.of_nat (length tail) - 1 ->
        blob_size (chunkData c) = s).
Proof.
  induction 1 as [|a i tail Hlt Hwin IH]; intros Ha c Hin; [destruct Hin|].
  destruct Hin as [<-|Hin].
  - cbn [chunkData chunkIndex length]. rewrite blob_slice_inside by lia.
    unfold blob_size at 1 3. rewrite length_firstn, length_skipn.
    destruct (Z_le_gt_dec (a + s) (blob_size blob)) as [Hfit|Hcut].
    + unfold blob_size in *. lia.
    + rewrite (windows_at_end _ _ _ Hwin) by lia.
      unfold blob_size in *. cbn [length]. lia.
  - destruct (IH ltac:(lia) c Hin) as [Hle Heq]. split; [exact Hle|].
    intros Hidx. apply Heq. cbn [length] in Hidx. lia.
Qed.

End Windows.

End IntegerSize.

(** ** The loop on any instance *)

Lemma while_loop_parentMsgId (this : Util) (blob : Blob) (total : number)
    (fuel : nat) :
  forall st st',
    while_loop fuel this blob total st = Some st' ->
    Forall (fun c => parentMsgId c = chunkedCount this) (chunks st) ->
    Forall (fun c => parentMsgId c = chunkedCount this) (chunks st').
Proof.
  induction fuel as [|fuel IH]; intros st st'; cbn [while_loop];
    destruct (js_lt (start st) (Fin (blob_size blob))); try discriminate;
    try (intros [= <-]; trivial).
  intros Hrun Hall. apply (IH _ _ Hrun). cbn [loop_body chunks].
  apply Forall_app. split; [assumption|]. repeat constructor.
Qed.

(** Whatever the instance holds, the chunks of one call carry the value of
    [chunkedCount] at the time of the call. *)
Lemma chunk_parentMsgId (fuel : nat) (this this' : Util) (blob : Blob)
    (cs : list Chunk) :
  chunk fuel this blob = Some (cs, this') ->
  Forall (fun c => parentMsgId c = chunkedCount this) cs.
Proof.
  unfold chunk.
  destruct (while_loop fuel this blob _ loop_init) as [st|] eqn:Hrun;
    [|discriminate].
  intros [= <- _]. apply (while_loop_parentMsgId _ _ _ _ _ _ Hrun). constructor.
Qed.


(** ** [joinArrayBuffers] writes the buffers side by side *)

Lemma byteLength_app (x y : list byte) :
  byteLength (x ++ y) = byteLength x + byteLength y.
Proof. unfold byteLength. rewrite length_app. lia. Qed.

Lemma fold_left_byteLength (buffers : list ArrayBuffer) (acc : Z) :
  fold_left (fun sum buffer => sum + byteLength buffer) buffers acc
  = acc + byteLength (concat buffers).
Proof.
  revert acc. induction buffers as [|b rest IH]; intros acc; cbn [fold_left concat].
  - unfold byteLength. cbn. lia.
  - rewrite IH, byteLength_app. lia.
Qed.

Lemma byteLength_concat (buffers : list ArrayBuffer) :
  byteLength (concat buffers) = fold_right Z.add 0 (map byteLength buffers).
Proof.
  induction buffers as [|b rest IH]; [reflexivity|].
  cbn [concat map fold_right]. rewrite byteLength_app, IH. reflexivity.
Qed.

(** Writing [source] right behind the bytes already written leaves the
    remaining zeros in place. *)
Lemma Uint8Array_set_next (written source : list byte) (m : nat) :
  Uint8Array_set (written ++ repeat x00 (length source + m)) source
    (byteLength written)
  = Some ((written ++ source) ++ repeat x00 m).
Proof.
  unfold Uint8Array_set, byteLength.
  rewrite !length_app, !repeat_length.
  destruct (Z.leb_spec 0 (Z.of_nat (length written))) as [_|?]; [|lia].
  destruct (Z.leb_spec
              (Z.of_nat (length written) + Z.of_nat (length source))
              (Z.of_nat (length written + (length source + m)))) as [_|?];
    [|lia].
  cbn [andb]. f_equal.
  rewrite Nat2Z.id, firstn_app, firstn_all, Nat.sub_diag, firstn_0, app_nil_r.
  rewrite <- app_assoc. do 2 f_equal.
  replace (Z.to_nat (Z.of_nat (length written) + Z.of_nat (length source)))
    with (length written + length source)%nat by lia.
  rewrite skipn_app, skipn_all2 by lia.
  replace (length written + length source - length written)%nat
    with (length source) by lia.
  rewrite repeat_app, skipn_app, repeat_length, Nat.sub_diag.
  rewrite skipn_all2 by (rewrite repeat_length; lia). reflexivity.
Qed.

Lemma join_loop_fill (buffers : list ArrayBuffer) :
  forall (written : list byte) (m : nat),
    join_loop buffers
      (written ++ repeat x00 (length (concat buffers) + m))
      (byteLength written)
    = Some (written ++ concat buffers ++ repeat x00 m).
Proof.
  induction buffers as [|b rest IH]; intros written m; cbn [join_loop concat].
  - reflexivity.
  - rewrite length_app, <- Nat.add_assoc, Uint8Array_set_next.
    rewrite <- byteLength_app, IH, <- !app_assoc. reflexivity.
Qed.

Lemma joinArrayBuffers_concat (buffers : list ArrayBuffer) :
  joinArrayBuffers buffers = Some (concat buffers).
Proof.
  unfold joinArrayBuffers, Uint8Array_new.
  rewrite fold_left_byteLength. unfold byteLength at 1.
  rewrite Z.add_0_l, Nat2Z.id.
  pose proof (join_loop_fill buffers [] 0) as H.
  rewrite Nat.add_0_r, !app_nil_r in H. exact H.
Qed.

(** ** Properties of the chunked transfer *)

Lemma windows_unfold (id : value) (blob : Blob) (s : Z) (total : number)
    (a i : Z) (tail : list Chunk) :
  windows id blob s total a i tail ->
  a < blob_size blob ->
  exists tail',
    tail = {| parentMsgId := id;
              chunkIndex := i;
              chunkData := blob_slice blob (Fin a)
                             (Fin (Z.min (blob_size blob) (a + s)));
              totalChunks := total |} :: tail'
    /\ windows id blob s total (Z.min (blob_size blob) (a + s)) (i + 1) tail'.
Proof.
  intros Hwin Ha. inversion Hwin; subst; [lia|]. eexists. split; [reflexivity|assumption].
Qed.

Lemma blob_slice_size (blob : Blob) (a e : Z) :
  blob_size blob <= 2 ^ 53 - 1 ->
  0 <= a <= e -> e <= blob_size blob ->
  blob_size (blob_slice blob (Fin a) (Fin e)) = e - a.
Proof.
  intros Hsafe Ha He. rewrite blob_slice_inside by assumption.
  unfold blob_size in *. rewrite length_firstn, length_skipn. lia.
Qed.

(** C1. For every payload and every fragment size [s > 0], [chunk] returns
    its chunks in ascending [chunkIndex] order, starting at 0, and
    [joinArrayBuffers] applied to their [chunkData] in that order gives back
    the payload, byte for byte. *)
Theorem chunk_join_roundtrip (this : Util) (blob : Blob) (s : Z) (fuel : nat) :
  chunkedMTU this = Num (Fin s) ->
  0 < s ->
  blob_size blob <= 2 ^ 53 - 1 ->
  (length blob <= fuel)%nat ->
  exists cs this',
    chunk fuel this blob = Some (cs, this')
    /\ map chunkIndex cs = map Z.of_nat (seq 0 (length cs))
    /\ joinArrayBuffers (map blobToArrayBuffer (map chunkData cs)) = Some blob.
Proof.
  intros Hmtu Hs Hsafe Hfuel.
  destruct (chunk_windows this blob s Hmtu Hs fuel Hfuel) as (cs & Hcall & Hwin).
  exists cs, (set_chunkedCount (js_incr (chunkedCount this)) this).
  split; [exact Hcall|]. split.
  - rewrite (windows_index _ _ _ _ _ _ _ Hwin). apply map_ext. intros k. lia.
  - rewrite joinArrayBuffers_concat. unfold blobToArrayBuffer. rewrite map_id.
    rewrite (windows_concat blob s Hs _ _ Hsafe _ _ _ Hwin).
    + reflexivity.
    + pose proof (blob_size_nonneg blob). lia.
Qed.

Lemma chunk_join_roundtrip_witness :
  exists cs this',
    chunk 5 (with_mtu 2) [x01; x02; x03; x04; x05] = Some (cs, this')
    /\ map chunkIndex cs = map Z.of_nat (seq 0 (length cs))
    /\ joinArrayBuffers (map blobToArrayBuffer (map chunkData cs))
       = Some [x01; x02; x03; x04; x05].
Proof.
  apply (chunk_join_roundtrip (with_mtu 2) [x01; x02; x03; x04; x05] 2 5).
  - reflexivity.
  - lia.
  - vm_compute. discriminate.
  - simpl. lia.
Defined.

(** C2. For every payload and every fragment size [s > 0], the number [n]
    of chunks returned is the ceiling of [size / s], that is
    [(n - 1) * s < size <= n * s], also written [(size + s - 1) / s]; an
    empty payload gives no chunk. *)
Theorem chunk_count (this : Util) (blob : Blob) (s : Z) (fuel : nat) :
  chunkedMTU this = Num (Fin s) ->
  0 < s ->
  (length blob <= fuel)%nat ->
  exists cs this',
    chunk fuel this blob = Some (cs, this')
    /\ (Z.of_nat (length cs) - 1) * s < blob_size blob <= Z.of_nat (length cs) * s
    /\ Z.of_nat (length cs) = (blob_size blob + s - 1) / s
    /\ (blob = [] -> cs = []).
Proof.
  intros Hmtu Hs Hfuel.
  destruct (chunk_windows this blob s Hmtu Hs fuel Hfuel) as (cs & Hcall & Hwin).
  exists cs, (set_chunkedCount (js_incr (chunkedCount this)) this).
  split; [exact Hcall|].
  pose proof (windows_count blob s Hs _ _ _ _ _ Hwin (blob_size_nonneg blob))
    as Hceil.
  rewrite Z.sub_0_r in Hceil. split; [exact Hceil|]. split.
  - rewrite <- ceil_quot_add_div by exact Hs.
    apply ceil_quot_unique; assumption.
  - intros ->. apply (windows_at_end _ _ _ _ _ _ _ Hwin). cbn. lia.
Qed.

Lemma chunk_count_witness :
  exists cs this',
    chunk 5 (with_mtu 2) [x01; x02; x03; x04; x05] = Some (cs, this')
    /\ (Z.of_nat (length cs) - 1) * 2 < 5 <= Z.of_nat (length cs) * 2
    /\ Z.of_nat (length cs) = (5 + 2 - 1) / 2
    /\ ([x01; x02; x03; x04; x05] = [] -> cs = []).
Proof.
  apply (chunk_count (with_mtu 2) [x01; x02; x03; x04; x05] 2 5).
  - reflexivity.
  - lia.
  - simpl. lia.
Defined.

(** C3. For every payload and every fragment size [s > 0], each chunk holds
    at most [s] bytes, and exactly [s] bytes unless its [chunkIndex] is
    [totalChunks - 1]; for a payload of 37 bytes and [s = 16] the sizes are
    16, 16 and 5 and [totalChunks] is 3. *)
Theorem chunk_sizes (this : Util) (blob : Blob) (s : Z) (fuel : nat) :
  chunkedMTU this = Num (Fin s) ->
  0 < s ->
  blob_size blob <= 2 ^ 53 - 1 ->
  (length blob <= fuel)%nat ->
  exists cs this',
    chunk fuel this blob = Some (cs, this')
    /\ (forall c, In c cs ->
          exists n, totalChunks c = Fin n
            /\ blob_size (chunkData c) <= s
            /\ (chunkIndex c <> n - 1 -> blob_size (chunkData c) = s))
    /\ (length blob = 37%nat -> s = 16 ->
          map (fun c => blob_size (chunkData c)) cs = [16; 16; 5]
          /\ map totalChunks cs = [Fin 3; Fin 3; Fin 3]).
Proof.
  intros Hmtu Hs Hsafe Hfuel.
  destruct (chunk_windows this blob s Hmtu Hs fuel Hfuel) as (cs & Hcall & Hwin).
  exists cs, (set_chunkedCount (js_incr (chunkedCount this)) this).
  split; [exact Hcall|].
  pose proof (blob_size_nonneg blob) as Hnonneg.
  pose proof (windows_count blob s Hs _ _ _ _ _ Hwin Hnonneg) as Hceil.
  rewrite Z.sub_0_r in Hceil.
  apply (ceil_quot_unique _ _ _ Hs) in Hceil.
  split.
  - intros c Hin. exists (ceil_quot (blob_size blob) s).
    pose proof (windows_fields blob s _ _ _ _ _ Hwin) as Hall.
    rewrite Forall_forall in Hall. destruct (Hall c Hin) as [_ Htotal].
    split; [exact Htotal|].
    destruct (windows_sizes blob s Hs _ _ Hsafe _ _ _ Hwin
                ltac:(lia) c Hin) as [Hle Heq].
    split; [exact Hle|]. intros Hidx. apply Heq. lia.
  - intros Hlen ->. clear Hceil.
    assert (Hsize : blob_size blob = 37) by (unfold blob_size; lia).
    rewrite Hsize in Hwin.
    change (ceil_quot 37 16) with 3 in Hwin.
    apply windows_unfold in Hwin as (t1 & -> & Hwin); [|lia].
    rewrite Hsize in Hwin. change (Z.min 37 (0 + 16)) with 16 in Hwin.
    apply windows_unfold in Hwin as (t2 & -> & Hwin); [|lia].
    rewrite Hsize in Hwin. change (Z.min 37 (16 + 16)) with 32 in Hwin.
    apply windows_unfold in Hwin as (t3 & -> & Hwin); [|lia].
    rewrite Hsize in Hwin. change (Z.min 37 (32 + 16)) with 37 in Hwin.
    apply windows_at_end in Hwin; [|lia]. subst t3.
    cbn [map chunkData totalChunks]. rewrite !blob_slice_size by lia.
    rewrite Hsize. split; reflexivity.
Qed.

Lemma chunk_sizes_witness :
  exists cs this',
    chunk 37 (with_mtu 16) (repeat x2a 37) = Some (cs, this')
    /\ (forall c, In c cs ->
          exists n, totalChunks c = Fin n
            /\ blob_size (chunkData c) <= 16
            /\ (chunkIndex c <> n - 1 -> blob_size (chunkData c) = 16))
    /\ (length (repeat x2a 37) = 37%nat -> 16 = 16 ->
          map (fun c => blob_size (chunkData c)) cs = [16; 16; 5]
          /\ map totalChunks cs = [Fin 3; Fin 3; Fin 3]).
Proof.
  apply (chunk_sizes (with_mtu 16) (repeat x2a 37) 16 37).
  - reflexivity.
  - lia.
  - vm_compute. discriminate.
  - simpl. lia.
Defined.

(** C4. For every payload and every fragment size [s > 0], all chunks of
    one call carry the same [totalChunks], which is the ceiling of
    [size / s] and the number of chunks returned. *)
Theorem chunk_totalChunks (this : Util) (blob : Blob) (s : Z) (fuel : nat) :
  chunkedMTU this = Num (Fin s) ->
  0 < s ->
  (length blob <= fuel)%nat ->
  exists cs this' n,
    chunk fuel this blob = Some (cs, this')
    /\ Forall (fun c => totalChunks c = Fin n) cs
    /\ n = Z.of_nat (length cs)
    /\ (n - 1) * s < blob_size blob <= n * s.
Proof.
  intros Hmtu Hs Hfuel.
  destruct (chunk_windows this blob s Hmtu Hs fuel Hfuel) as (cs & Hcall & Hwin).
  exists cs, (set_chunkedCount (js_incr (chunkedCount this)) this),
    (ceil_quot (blob_size blob) s).
  split; [exact Hcall|].
  pose proof (windows_count blob s Hs _ _ _ _ _ Hwin (blob_size_nonneg blob))
    as Hceil.
  rewrite Z.sub_0_r in Hceil. split; [|split].
  - pose proof (windows_fields blob s _ _ _ _ _ Hwin) as Hall.
    eapply Forall_impl; [|exact Hall]. intros c [_ H]. exact H.
  - symmetry. apply ceil_quot_unique; assumption.
  - apply ceil_quot_spec. exact Hs.
Qed.

Lemma chunk_totalChunks_witness :
  exists cs this' n,
    chunk 5 (with_mtu 2) [x01; x02; x03; x04; x05] = Some (cs, this')
    /\ Forall (fun c => totalChunks c = Fin n) cs
    /\ n = Z.of_nat (length cs)
    /\ (n - 1) * 2 < 5 <= n * 2.
Proof.
  apply (chunk_totalChunks (with_mtu 2) [x01; x02; x03; x04; x05] 2 5).
  - reflexivity.
  - lia.
  - simpl. lia.
Defined.

(** C5. On a freshly constructed instance the constant 16300 is stored in
    [maxChunkSize], while [chunk] reads [chunkedMTU], which the constructor
    does not assign: for any payload that is not empty the call returns one
    chunk with no data and [totalChunks = NaN] instead of windows of 16300
    bytes. *)
Theorem chunk_fresh_instance :
  forall (window : Window) (probe : option bool) (fuel : nat)
         (b : byte) (rest : list byte),
    maxChunkSize (constructor window probe) = 16300
    /\ chunkedMTU (constructor window probe) = Undefined
    /\ chunk (S fuel) (constructor window probe) (b :: rest)
       = Some ([{| parentMsgId := Undefined;
                   chunkIndex := 0;
                   chunkData := [];
                   totalChunks := NaN |}],
               set_chunkedCount (Num NaN) (constructor window probe)).
Proof.
  intros window probe fuel b rest. split; [reflexivity|]. split; [reflexivity|].
  unfold chunk, loop_init. cbn [while_loop start].
  assert (Hlt : js_lt (Fin 0) (Fin (blob_size (b :: rest))) = true).
  { cbn [js_lt]. apply Z.ltb_lt. unfold blob_size. cbn [length]. lia. }
  rewrite Hlt.
  assert (Hslice : blob_slice (b :: rest) (Fin 0) NaN = []).
  { unfold blob_slice, clamp_long_long, relative_pos.
    change (0 <? 0) with false. cbv iota.
    rewrite Z.min_l by apply blob_size_nonneg. reflexivity. }
  unfold loop_body. cbn [chunkedMTU chunkedCount constructor ToNumber start
                         index chunks js_add Math_min Math_ceil_div app].
  rewrite Hslice. destruct fuel; reflexivity.
Qed.

(** When the counter was never assigned, the chunks of the first call carry
    [undefined] and the counter is [NaN] from then on. *)
Lemma chunk_counter_undefined (fuel : nat) (this this' : Util) (blob : Blob)
    (cs : list Chunk) :
  chunkedCount this = Undefined \/ chunkedCount this = Num NaN ->
  chunk fuel this blob = Some (cs, this') ->
  Forall (fun c => parentMsgId c = chunkedCount this) cs
  /\ chunkedCount this' = Num NaN.
Proof.
  intros Hcount Hcall. split; [exact (chunk_parentMsgId _ _ _ _ _ Hcall)|].
  unfold chunk in Hcall.
  destruct (while_loop fuel this blob _ loop_init); [|discriminate].
  injection Hcall as _ <-. cbn. destruct Hcount as [-> | ->]; reflexivity.
Qed.

(** C6. On a freshly constructed instance, with any fragment size set, the
    counter does not start at 0: the chunks of the first call carry
    [undefined] as [parentMsgId], the increment stores [NaN], and the chunks
    of the second call carry [NaN]. *)
Theorem chunk_counter_on_fresh_instance :
  chunkedCount fresh = Undefined
  /\ exists cs1 this1 cs2 this2,
       chunk 3 (with_mtu 2) [x01; x02; x03] = Some (cs1, this1)
       /\ map parentMsgId cs1 = [Undefined; Undefined]
       /\ chunkedCount this1 = Num NaN
       /\ chunk 3 this1 [x01; x02; x03] = Some (cs2, this2)
       /\ map parentMsgId cs2 = [Num NaN; Num NaN]
       /\ chunkedCount this2 = Num NaN.
Proof.
  split; [reflexivity|].
  do 4 eexists. split; [vm_compute; reflexivity|].
  split; [reflexivity|]. split; [reflexivity|].
  split; [vm_compute; reflexivity|]. split; reflexivity.
Qed.

(** C7. For every list of buffers, the empty one included,
    [joinArrayBuffers] returns their concatenation in the given order, and
    its length is the sum of the lengths of the buffers. *)
Theorem joinArrayBuffers_correct (buffers : list ArrayBuffer) :
  exists out,
    joinArrayBuffers buffers = Some out
    /\ out = concat buffers
    /\ byteLength out = fold_right Z.add 0 (map byteLength buffers).
Proof.
  exists (concat buffers). split; [apply joinArrayBuffers_concat|].
  split; [reflexivity|apply byteLength_concat].
Qed.

(** C8, as the specification states it, fails: with a fragment size of 0 and
    an empty payload the call returns an array of chunks, the empty one. *)
Lemma chunk_size_zero_returns :
  chunkedMTU (with_mtu 0) = Num (Fin 0)
  /\ chunk 0 (with_mtu 0) []
     = Some ([], set_chunkedCount (Num NaN) (with_mtu 0)).
Proof. split; reflexivity. Qed.

(** C8, amended. With a fragment size of 0 or less [chunk] checks nothing
    and changes nothing in the size: for an empty payload it returns the
    empty array and increments the counter, and for any other payload the
    test of its loop stays true whatever the fuel, so that nothing is
    returned. *)
Theorem chunk_nonpositive_size (this : Util) (blob : Blob) (s : Z) :
  chunkedMTU this = Num (Fin s) ->
  s <= 0 ->
  (blob = [] ->
   forall fuel,
     chunk fuel this blob
     = Some ([], set_chunkedCount (js_incr (chunkedCount this)) this))
  /\ (blob <> [] -> forall fuel, chunk fuel this blob = None).
Proof.
  intros Hmtu Hs. split.
  - intros -> fuel. unfold chunk. destruct fuel; reflexivity.
  - intros Hblob fuel. unfold chunk, loop_init.
    rewrite (while_loop_stuck this blob s Hmtu _ fuel Hs); [reflexivity| |lia].
    destruct blob; [contradiction|]. unfold blob_size. cbn [length]. lia.
Qed.

Lemma chunk_nonpositive_size_witness :
  ([x01; x02] = [] ->
   forall fuel,
     chunk fuel (with_mtu (-1)) [x01; x02]
     = Some ([], set_chunkedCount (js_incr (chunkedCount (with_mtu (-1))))
                   (with_mtu (-1))))
  /\ ([x01; x02] <> [] -> forall fuel, chunk fuel (with_mtu (-1)) [x01; x02] = None).
Proof.
  apply (chunk_nonpositive_size (with_mtu (-1)) [x01; x02] (-1)).
  - reflexivity.
  - lia.
Defined.

(** C9. For every payload and every fragment size [s > 0] the loop of
    [chunk] stops, with [start] equal to the size of the payload, so that
    [chunk] returns; and each pass through the body moves [start] strictly
    forward, never past the size. *)
Theorem chunk_loop_terminates (this : Util) (blob : Blob) (s : Z) (fuel : nat) :
  chunkedMTU this = Num (Fin s) ->
  0 < s ->
  (length blob <= fuel)%nat ->
  (exists st,
     while_loop fuel this blob
       (Math_ceil_div (Fin (blob_size blob)) (ToNumber (chunkedMTU this)))
       loop_init = Some st
     /\ start st = Fin (blob_size blob))
  /\ (exists r, chunk fuel this blob = Some r)
  /\ (forall total cs a i,
        a < blob_size blob ->
        exists a',
          start (loop_body this blob total
                   {| chunks := cs; start := Fin a; index := i |}) = Fin a'
          /\ a < a' <= blob_size blob).
Proof.
  intros Hmtu Hs Hfuel. split; [|split].
  - destruct (while_loop_windows this blob s Hmtu Hs
                (Math_ceil_div (Fin (blob_size blob)) (ToNumber (chunkedMTU this)))
                fuel [] 0 0) as (tail & Hrun & _).
    + apply blob_size_nonneg.
    + unfold blob_size. lia.
    + eexists. split; [exact Hrun|reflexivity].
  - destruct (chunk_windows this blob s Hmtu Hs fuel Hfuel) as (cs & Hcall & _).
    eexists. exact Hcall.
  - intros total cs a i Ha. rewrite (loop_body_Fin this blob s Hmtu).
    eexists. split; [reflexivity|]. lia.
Qed.

Lemma chunk_loop_terminates_witness :
  (exists st,
     while_loop 5 (with_mtu 2) [x01; x02; x03; x04; x05]
       (Math_ceil_div (Fin (blob_size [x01; x02; x03; x04; x05]))
          (ToNumber (chunkedMTU (with_mtu 2))))
       loop_init = Some st
     /\ start st = Fin (blob_size [x01; x02; x03; x04; x05]))
  /\ (exists r, chunk 5 (with_mtu 2) [x01; x02; x03; x04; x05] = Some r)
  /\ (forall total cs a i,
        a < blob_size [x01; x02; x03; x04; x05] ->
        exists a',
          start (loop_body (with_mtu 2) [x01; x02; x03; x04; x05] total
                   {| chunks := cs; start := Fin a; index := i |}) = Fin a'
          /\ a < a' <= blob_size [x01; x02; x03; x04; x05]).
Proof.
  apply (chunk_loop_terminates (with_mtu 2) [x01; x02; x03; x04; x05] 2 5).
  - reflexivity.
  - lia.
  - simpl. lia.
Defined.

(** C10. Whenever [chunk] returns, the instance after the call is the
    instance before it with [chunkedCount] incremented: every other field
    keeps its value.  The payload is a [Blob], which [chunk] only reads, by
    [size] and [slice]. *)
Theorem chunk_frame (fuel : nat) (this this' : Util) (blob : Blob)
    (cs : list Chunk) :
  chunk fuel this blob = Some (cs, this') ->
  same_except_chunkedCount this this'
  /\ this' = set_chunkedCount (js_incr (chunkedCount this)) this.
Proof.
  unfold chunk.
  destruct (while_loop fuel this blob _ loop_init); [|discriminate].
  intros [= _ <-]. split; [|reflexivity].
  unfold same_except_chunkedCount. cbn. repeat split.
Qed.

Lemma chunk_frame_witness :
  same_except_chunkedCount (with_mtu 2)
    (set_chunkedCount (Num NaN) (with_mtu 2))
  /\ set_chunkedCount (Num NaN) (with_mtu 2)
     = set_chunkedCount (js_incr (chunkedCount (with_mtu 2))) (with_mtu 2).
Proof.
  apply (chunk_frame 3 (with_mtu 2) _ [x01; x02; x03]
           [{| parentMsgId := Undefined; chunkIndex := 0;
               chunkData := [x01; x02]; totalChunks := Fin 2 |};
            {| parentMsgId := Undefined; chunkIndex := 1;
               chunkData := [x03]; totalChunks := Fin 2 |}]).
  vm_compute. reflexivity.
Defined.

(** ** More on [chunk] *)

Lemma windows_nth (id : value) (blob : Blob) (s : Z) (total : number) :
  0 < s ->
  blob_size blob <= 2 ^ 53 - 1 ->
  forall a i tail,
    windows id blob s total a i tail ->
    0 <= a <= blob_size blob ->
    forall k c,
      nth_error tail k = Some c ->
      chunkIndex c = i + Z.of_nat k
      /\ chunkData c
         = firstn (Z.to_nat s) (skipn (Z.to_nat (a + Z.of_nat k * s)) blob).
Proof.
  intros Hs Hsafe a i tail Hwin.
  induction Hwin as [|a i tail Hlt Hwin IH]; intros Ha k c Hk.
  - destruct k; discriminate.
  - destruct k as [|k]; cbn [nth_error] in Hk.
    + injection Hk as <-. cbn [chunkIndex chunkData].
      split; [lia|]. rewrite blob_slice_inside by lia.
      replace (Z.to_nat (a + Z.of_nat 0 * s)) with (Z.to_nat a) by lia.
      destruct (Z_le_gt_dec (a + s) (blob_size blob)) as [Hfit|Hcut].
      * do 2 f_equal. lia.
      * rewrite !firstn_all2; [reflexivity| |];
          rewrite length_skipn; unfold blob_size in *; lia.
    + destruct (Z_le_gt_dec (a + s) (blob_size blob)) as [Hfit|Hcut].
      * destruct (IH ltac:(lia) k c Hk) as [Hidx Hdata]. split; [lia|].
        rewrite Hdata. do 3 f_equal. lia.
      * rewrite (windows_at_end blob s _ _ _ _ _ Hwin) in Hk by lia.
        destruct k; discriminate.
Qed.

(** X1. With a fragment size [s > 0], the chunk at position [k] of the
    returned array has [chunkIndex = k] and holds the bytes of the payload
    from offset [k * s] on, [s] of them or as many as are left. *)
Theorem chunk_positions (this : Util) (blob : Blob) (s : Z) (fuel : nat) :
  chunkedMTU this = Num (Fin s) ->
  0 < s ->
  blob_size blob <= 2 ^ 53 - 1 ->
  (length blob <= fuel)%nat ->
  exists cs this',
    chunk fuel this blob = Some (cs, this')
    /\ forall k c,
         nth_error cs k = Some c ->
         chunkIndex c = Z.of_nat k
         /\ chunkData c = firstn (Z.to_nat s) (skipn (k * Z.to_nat s) blob).
Proof.
  intros Hmtu Hs Hsafe Hfuel.
  destruct (chunk_windows this blob s Hmtu Hs fuel Hfuel) as (cs & Hcall & Hwin).
  exists cs, (set_chunkedCount (js_incr (chunkedCount this)) this).
  split; [exact Hcall|]. intros k c Hk.
  pose proof (blob_size_nonneg blob) as Hnonneg.
  destruct (windows_nth _ blob s _ Hs Hsafe _ _ _ Hwin ltac:(lia) k c Hk)
    as [Hidx Hdata].
  split; [lia|]. rewrite Hdata. do 2 f_equal.
  rewrite Z.add_0_l, Z2Nat.inj_mul, Nat2Z.id by lia. reflexivity.
Qed.

Lemma chunk_positions_witness :
  exists cs this',
    chunk 5 (with_mtu 2) [x01; x02; x03; x04; x05] = Some (cs, this')
    /\ forall k c,
         nth_error cs k = Some c ->
         chunkIndex c = Z.of_nat k
         /\ chunkData c
            = firstn (Z.to_nat 2) (skipn (k * Z.to_nat 2) [x01; x02; x03; x04; x05]).
Proof.
  apply (chunk_positions (with_mtu 2) [x01; x02; x03; x04; x05] 2 5).
  - reflexivity.
  - lia.
  - vm_compute. discriminate.
  - simpl. lia.
Defined.



Lemma while_loop_tags (this : Util) (blob : Blob) (total : number)
    (fuel : nat) :
  forall st st',
    while_loop fuel this blob total st = Some st' ->
    exists tail,
      chunks st' = chunks st ++ tail
      /\ map chunkIndex tail
         = map (fun k => index st + Z.of_nat k) (seq 0 (length tail))
      /\ Forall (fun c => totalChunks c = total) tail.
Proof.
  induction fuel as [|fuel IH]; intros st st'; cbn [while_loop];
    destruct (js_lt (start st) (Fin (blob_size blob))); try discriminate;
    try (intros [= <-]; exists []; rewrite app_nil_r; repeat split; constructor).
  intros Hrun. destruct (IH _ _ Hrun) as (tail & Hchunks & Hidx & Htotal).
  cbn [loop_body chunks index] in Hchunks, Hidx.
  eexists (_ :: tail). rewrite Hchunks, <- app_assoc. split; [reflexivity|].
  split.
  - cbn [map length seq chunkIndex]. f_equal; [lia|].
    rewrite Hidx, <- seq_shift, map_map. apply map_ext. intros k. lia.
  - constructor; [reflexivity|exact Htotal].
Qed.

(** X3. Whatever the instance holds, also a fragment size that is missing,
    zero or negative, an array returned by [chunk] numbers its chunks
    0, 1, 2, ... in order, and all of them carry the counter as it was at
    the call and the one [totalChunks] computed before the loop. *)
Theorem chunk_tags (fuel : nat) (this this' : Util) (blob : Blob)
    (cs : list Chunk) :
  chunk fuel this blob = Some (cs, this') ->
  map chunkIndex cs = map Z.of_nat (seq 0 (length cs))
  /\ Forall (fun c =>
               parentMsgId c = chunkedCount this
               /\ totalChunks c
                  = Math_ceil_div (Fin (blob_size blob))
                      (ToNumber (chunkedMTU this))) cs.
Proof.
  intros Hcall.
  pose proof (chunk_parentMsgId _ _ _ _ _ Hcall) as Hids.
  unfold chunk in Hcall.
  destruct (while_loop fuel this blob _ loop_init) as [st|] eqn:Hrun;
    [|discriminate].
  injection Hcall as <- _.
  destruct (while_loop_tags _ _ _ _ _ _ Hrun) as (tail & Hchunks & Hidx & Htotal).
  cbn in Hchunks. rewrite Hchunks in *. split.
  - rewrite Hidx. apply map_ext. intros k. cbn. lia.
  - rewrite Forall_forall in *. intros c Hin. split; auto.
Qed.

Lemma chunk_tags_witness :
  map chunkIndex
    [{| parentMsgId := Undefined; chunkIndex := 0;
        chunkData := []; totalChunks := NaN |}]
  = map Z.of_nat (seq 0 1)
  /\ Forall (fun c =>
               parentMsgId c = chunkedCount fresh
               /\ totalChunks c
                  = Math_ceil_div (Fin (blob_size [x01; x02]))
                      (ToNumber (chunkedMTU fresh)))
       [{| parentMsgId := Undefined; chunkIndex := 0;
           chunkData := []; totalChunks := NaN |}].
Proof.
  apply (chunk_tags 2 fresh (set_chunkedCount (Num NaN) fresh) [x01; x02]).
  vm_compute. reflexivity.
Defined.

(** ** Matching by derivatives decides the language *)

Lemma nullable_lang (r : regex) : nullable r = true <-> lang r [].
Proof.
  split.
  - induction r; cbn; intros H; try discriminate.
    + constructor.
    + apply andb_prop in H as [H1 H2].
      apply (lang_Seq _ _ [] []); auto.
    + apply orb_prop in H as [H|H]; [apply lang_Alt_l|apply lang_Alt_r]; auto.
    + constructor.
  - intros H. remember [] as s eqn:Hs.
    induction H; cbn; try discriminate; try reflexivity.
    + apply app_eq_nil in Hs as [-> ->]. rewrite IHlang1, IHlang2; reflexivity.
    + rewrite (IHlang Hs). reflexivity.
    + rewrite (IHlang Hs). apply orb_true_r.
Qed.

Lemma lang_deriv (c : N) (r : regex) :
  forall s, lang (deriv c r) s -> lang r (c :: s).
Proof.
  induction r; cbn [deriv]; intros s H.
  - inversion H.
  - inversion H.
  - destruct (in_class ranges c) eqn:Hc; inversion H; subst.
    constructor. exact Hc.
  - destruct (nullable r1) eqn:Hnull.
    + inversion H as [| | | ? ? ? H' | ? ? ? H' | |]; subst.
      * inversion H' as [| | ? ? s1 s2 H1 H2 | | | |]; subst.
        apply (lang_Seq _ _ (c :: s1) s2); auto.
      * apply (lang_Seq _ _ [] (c :: s)); [|auto].
        apply nullable_lang. exact Hnull.
    + inversion H as [| | ? ? s1 s2 H1 H2 | | | |]; subst.
      apply (lang_Seq _ _ (c :: s1) s2); auto.
  - inversion H; subst; [apply lang_Alt_l|apply lang_Alt_r]; auto.
  - inversion H as [| | ? ? s1 s2 H1 H2 | | | |]; subst.
    apply (lang_Star_cons _ (c :: s1) s2); auto.
Qed.

Lemma deriv_lang (c : N) (r : regex) (t : jsstring) :
  lang r t -> forall s, t = c :: s -> lang (deriv c r) s.
Proof.
  induction 1 as [| ranges c' Hc | r1 r2 s1 s2 H1 IH1 H2 IH2
                  | r1 r2 t H IH | r1 r2 t H IH | r | r s1 s2 H1 IH1 H2 IH2];
    intros s Hs; cbn [deriv].
  - discriminate.
  - injection Hs as -> <-. rewrite Hc. constructor.
  - destruct s1 as [|c1 s1].
    + cbn in Hs. subst s2.
      assert (Hnull : nullable r1 = true) by (apply nullable_lang; exact H1).
      rewrite Hnull. apply lang_Alt_r. apply IH2. reflexivity.
    + injection Hs as -> <-.
      assert (Hd : lang (Seq (deriv c r1) r2) (s1 ++ s2))
        by (constructor; [apply IH1; reflexivity|exact H2]).
      destruct (nullable r1); [apply lang_Alt_l|]; exact Hd.
  - apply lang_Alt_l. auto.
  - apply lang_Alt_r. auto.
  - discriminate.
  - destruct s1 as [|c1 s1].
    + cbn in Hs. apply IH2. exact Hs.
    + injection Hs as -> <-. constructor; [apply IH1; reflexivity|exact H2].
Qed.

Lemma regex_exec_lang (r : regex) (s : jsstring) :
  regex_exec r s = true <-> lang r s.
Proof.
  revert r. induction s as [|c s IH]; intros r; cbn [regex_exec].
  - apply nullable_lang.
  - rewrite IH. split; [apply lang_deriv|].
    intros H. apply (deriv_lang c r (c :: s) H). reflexivity.
Qed.

(** ** The languages of classes and repetitions *)

Lemma lang_Seq_iff (r1 r2 : regex) (s : jsstring) :
  lang (Seq r1 r2) s
  <-> exists s1 s2, s = s1 ++ s2 /\ lang r1 s1 /\ lang r2 s2.
Proof.
  split.
  - intros H. inversion H; subst. eauto.
  - intros (s1 & s2 & -> & H1 & H2). constructor; assumption.
Qed.

Lemma lang_Class_iff (ranges : list (N * N)) (s : jsstring) :
  lang (Class ranges) s <-> exists c, s = [c] /\ in_class ranges c = true.
Proof.
  split.
  - intros H. inversion H; subst. eauto.
  - intros (c & -> & H). constructor. exact H.
Qed.

Lemma lang_Eps_iff (s : jsstring) : lang Eps s <-> s = [].
Proof.
  split; [intros H; inversion H; reflexivity|intros ->; constructor].
Qed.

Lemma lang_Rep_Class (ranges : list (N * N)) (n : nat) (s : jsstring) :
  lang (Rep n (Class ranges)) s
  <-> length s = n /\ Forall (fun c => in_class ranges c = true) s.
Proof.
  revert s. induction n as [|n IH]; intros s; cbn [Rep].
  - rewrite lang_Eps_iff. split.
    + intros ->. split; [reflexivity|constructor].
    + intros [H _]. apply length_zero_iff_nil. exact H.
  - rewrite lang_Seq_iff. split.
    + intros (s1 & s2 & -> & H1 & H2).
      apply lang_Class_iff in H1 as (c & -> & Hc).
      apply IH in H2 as [Hlen Hall]. cbn. split; [lia|].
      constructor; assumption.
    + intros [Hlen Hall]. destruct s as [|c s]; [discriminate|].
      inversion Hall; subst. exists [c], s. split; [reflexivity|].
      split; [constructor; assumption|]. apply IH.
      cbn in Hlen. split; [lia|assumption].
Qed.

Lemma lang_Star_Class (ranges : list (N * N)) (s : jsstring) :
  lang (Star (Class ranges)) s <-> Forall (fun c => in_class ranges c = true) s.
Proof.
  split.
  - intros H. remember (Star (Class ranges)) as r eqn:Hr.
    induction H; try discriminate.
    + constructor.
    + injection Hr as ->. apply Forall_app. split; [|auto].
      apply lang_Class_iff in H as (c & -> & Hc). repeat constructor. exact Hc.
  - induction 1 as [|c s Hc _ IH]; [constructor|].
    apply (lang_Star_cons _ [c] s); [constructor; exact Hc|exact IH].
Qed.

Lemma lang_Plus_Class (ranges : list (N * N)) (s : jsstring) :
  lang (Plus (Class ranges)) s
  <-> s <> [] /\ Forall (fun c => in_class ranges c = true) s.
Proof.
  unfold Plus. rewrite lang_Seq_iff. split.
  - intros (s1 & s2 & -> & H1 & H2).
    apply lang_Class_iff in H1 as (c & -> & Hc).
    apply lang_Star_Class in H2. split; [discriminate|].
    constructor; assumption.
  - intros [Hne Hall]. destruct s as [|c s]; [contradiction|].
    inversion Hall; subst. exists [c], s. split; [reflexivity|].
    split; [constructor; assumption|apply lang_Star_Class; assumption].
Qed.

Lemma in_class_app (r1 r2 : list (N * N)) (c : N) :
  in_class (r1 ++ r2) c = in_class r1 c || in_class r2 c.
Proof. unfold in_class. apply existsb_app. Qed.

(** ** [validateKey] *)

(** X4. [validateKey] accepts a key that is left out or empty and, besides,
    exactly the keys made of groups of 8, 4, 4, 4 and 12 characters from
    [a-z0-9] with a hyphen between the groups. *)
Theorem validateKey_shape (key : jsstring) :
  validateKey (Some key) = true
  <-> key = []
      \/ exists g1 g2 g3 g4 g5,
           key = g1 ++ code "-" :: g2 ++ code "-" :: g3
                    ++ code "-" :: g4 ++ code "-" :: g5
           /\ length g1 = 8%nat /\ length g2 = 4%nat /\ length g3 = 4%nat
           /\ length g4 = 4%nat /\ length g5 = 12%nat
           /\ Forall (fun c => in_class key_ranges c = true)
                (g1 ++ g2 ++ g3 ++ g4 ++ g5).
Proof.
  unfold validateKey. destruct key as [|c key]; cbn [js_not orb].
  { split; auto. }
  rewrite regex_exec_lang. set (s := c :: key). unfold KEY_REGEX.
  cbn [Rep]. split.
  - intros H. right.
    apply lang_Seq_iff in H as (g1 & t1 & E1 & Hg1 & H).
    apply lang_Seq_iff in H as (t2 & t3 & E2 & H & H5).
    apply lang_Seq_iff in H as (b2 & t4 & E3 & Hb2 & H).
    apply lang_Seq_iff in H as (b3 & t5 & E4 & Hb3 & H).
    apply lang_Seq_iff in H as (b4 & t6 & E5 & Hb4 & H).
    apply lang_Eps_iff in H. subst t6.
    apply lang_Seq_iff in Hb2 as (d2 & g2 & -> & Hd2 & Hg2).
    apply lang_Seq_iff in Hb3 as (d3 & g3 & -> & Hd3 & Hg3).
    apply lang_Seq_iff in Hb4 as (d4 & g4 & -> & Hd4 & Hg4).
    apply lang_Seq_iff in H5 as (d5 & g5 & -> & Hd5 & Hg5).
    apply lang_Class_iff in Hd2 as (? & -> & Hc2).
    apply lang_Class_iff in Hd3 as (? & -> & Hc3).
    apply lang_Class_iff in Hd4 as (? & -> & Hc4).
    apply lang_Class_iff in Hd5 as (? & -> & Hc5).
    assert (Hdash : forall u, in_class [single "-"%char] u = true -> u = code "-").
    { intros u Hu. unfold in_class, in_range, single in Hu.
      cbn [existsb fst snd] in Hu.
      rewrite orb_false_r in Hu. apply andb_prop in Hu as [Hlo Hhi].
      apply N.leb_le in Hlo, Hhi. lia. }
    apply Hdash in Hc2, Hc3, Hc4, Hc5. subst.
    change (Seq (Class key_ranges) (Seq (Class key_ranges) (Seq (Class key_ranges)
              (Seq (Class key_ranges) Eps))))
      with (Rep 4 (Class key_ranges)) in Hg2, Hg3, Hg4.
    change (lang (Rep 8 (Class key_ranges)) g1) in Hg1.
    change (lang (Rep 12 (Class key_ranges)) g5) in Hg5.
    apply lang_Rep_Class in Hg1 as [L1 A1], Hg2 as [L2 A2], Hg3 as [L3 A3],
      Hg4 as [L4 A4], Hg5 as [L5 A5].
    exists g1, g2, g3, g4, g5. rewrite E1.
    rewrite app_nil_r. repeat rewrite <- app_assoc. cbn [app].
    repeat split; trivial.
    repeat (apply Forall_app; split); assumption.
  - intros [Habs|(g1 & g2 & g3 & g4 & g5 & E & L1 & L2 & L3 & L4 & L5 & Hall)];
      [discriminate|].
    apply Forall_app in Hall as [A1 Hall]. apply Forall_app in Hall as [A2 Hall].
    apply Forall_app in Hall as [A3 Hall]. apply Forall_app in Hall as [A4 A5].
    assert (Hdash : lang (Class [single "-"%char]) [code "-"])
      by (constructor; reflexivity).
    assert (H4 : forall g, length g = 4%nat ->
                 Forall (fun c => in_class key_ranges c = true) g ->
                 lang (Seq (Class [single "-"%char]) (Rep 4 (Class key_ranges)))
                   (code "-" :: g)).
    { intros g L A. apply (lang_Seq _ _ [code "-"] g); [exact Hdash|].
      apply lang_Rep_Class. auto. }
    rewrite E.
    apply lang_Seq; [apply (lang_Rep_Class _ 8); auto|].
    replace (code "-" :: g2 ++ code "-" :: g3 ++ code "-" :: g4 ++ code "-" :: g5)
      with (((code "-" :: g2) ++ (code "-" :: g3) ++ (code "-" :: g4) ++ [])
              ++ (code "-" :: g5))
      by (rewrite app_nil_r; repeat rewrite <- app_assoc; reflexivity).
    apply lang_Seq.
    + apply lang_Seq; [apply H4; assumption|].
      apply lang_Seq; [apply H4; assumption|].
      apply lang_Seq; [apply H4; assumption|constructor].
    + apply (lang_Seq _ _ [code "-"] g5); [exact Hdash|].
      apply (lang_Rep_Class _ 12). auto.
Qed.

(** ** [validateId] *)

Lemma in_class_single (a : Ascii.ascii) (c : N) :
  in_class [single a] c = true <-> c = code a.
Proof.
  unfold in_class, in_range, single. cbn [existsb fst snd].
  rewrite orb_false_r, andb_true_iff, !N.leb_le. lia.
Qed.

Lemma in_class_cons (r : N * N) (ranges : list (N * N)) (c : N) :
  in_class (r :: ranges) c = in_range c r || in_class ranges c.
Proof. reflexivity. Qed.

Lemma space_not_alnum : in_class alnum_ranges (code " ") = false.
Proof. reflexivity. Qed.

(** What may follow the first group: separators in front of letters and
    digits.  A space in it is followed by a letter or a digit. *)
Lemma lang_id_tail (t : jsstring) :
  lang (Star (Seq (Class [single " "; single "_"; single "-"]%char)
                  (Plus (Class alnum_ranges)))) t ->
  Forall (fun c => in_class (alnum_ranges
                               ++ [single " "; single "_"; single "-"]%char) c
                   = true) t
  /\ forall pre post,
       t = pre ++ code " " :: post ->
       exists c rest, post = c :: rest /\ in_class alnum_ranges c = true.
Proof.
  intros H.
  remember (Star (Seq (Class [single " "; single "_"; single "-"]%char)
                      (Plus (Class alnum_ranges)))) as r eqn:Hr.
  induction H as [| | | | | r0 | r0 s1 s2 H1 _ H2 IH]; try discriminate.
  - split; [constructor|]. intros pre post E. destruct pre; discriminate.
  - injection Hr as ->. destruct (IH eq_refl) as [Hall Hsp]. clear IH.
    apply lang_Seq_iff in H1 as (x & w & -> & Hx & Hw).
    apply lang_Class_iff in Hx as (x0 & -> & Hx).
    apply lang_Plus_Class in Hw as [Hne Hw]. split.
    + apply Forall_app. split; [|exact Hall]. constructor.
      * rewrite in_class_app, Hx. apply orb_true_r.
      * eapply Forall_impl; [|exact Hw]. intros c Hc.
        rewrite in_class_app, Hc. reflexivity.
    + intros pre post E. cbn [app] in E. destruct pre as [|p pre]; cbn [app] in E.
      * injection E as -> <-. destruct w as [|c w]; [contradiction|].
        inversion Hw; subst. exists c, (w ++ s2). split; [reflexivity|assumption].
      * injection E as -> E.
        apply app_eq_app in E as (l & [[Ew El]|[Epre Es2]]).
        -- destruct l as [|c l]; cbn [app] in El.
           ++ apply (Hsp [] post). symmetry. exact El.
           ++ injection El as <- _. subst w.
              apply Forall_app in Hw as [_ Hw]. inversion Hw as [|? ? Hc _]; subst.
              change 32%N with (code " ") in Hc.
              rewrite space_not_alnum in Hc. discriminate.
        -- apply (Hsp l post). exact Es2.
Qed.

(** X5. An id that [validateId] accepts is made of letters, digits, [_],
    [-] and spaces only, and a space in it never comes first and is always
    followed by a letter or a digit: no leading, trailing or doubled
    space. *)
Theorem validateId_accepted (id : jsstring) :
  validateId (Some id) = true ->
  Forall (fun c => in_class (alnum_ranges
                               ++ [single " "; single "_"; single "-"]%char) c
                   = true) id
  /\ forall pre post,
       id = pre ++ code " " :: post ->
       pre <> []
       /\ exists c rest, post = c :: rest /\ in_class alnum_ranges c = true.
Proof.
  unfold validateId. destruct id as [|c0 id]; cbn [js_not orb].
  { intros _. split; [constructor|]. intros pre post E. destruct pre; discriminate. }
  rewrite regex_exec_lang. unfold ID_REGEX. intros H.
  apply lang_Seq_iff in H as (s1 & t & E & H1 & Ht).
  apply lang_Plus_Class in H1 as [Hne H1].
  apply lang_id_tail in Ht as [Hall Hsp].
  assert (Hnosp : ~ In (code " ") s1).
  { intros Hin. rewrite Forall_forall in H1. specialize (H1 _ Hin).
    vm_compute in H1. discriminate. }
  rewrite E. split.
  - apply Forall_app. split; [|exact Hall].
    eapply Forall_impl; [|exact H1]. intros c Hc. cbv beta in Hc.
    rewrite in_class_app in Hc |- *. apply orb_prop in Hc as [Hc|Hc].
    + rewrite Hc. reflexivity.
    + rewrite in_class_cons. rewrite Hc. rewrite !orb_true_r. reflexivity.
  - intros pre post E'.
    apply app_eq_app in E' as (l & [[Es1 El]|[Epre Et]]).
    + destruct l as [|c l]; cbn [app] in El.
      * rewrite app_nil_r in Es1. subst pre. split; [exact Hne|].
        apply (Hsp [] post). symmetry. exact El.
      * injection El as <- _. exfalso. apply Hnosp. rewrite Es1.
        apply in_or_app. right. left. reflexivity.
    + split.
      * rewrite Epre. destruct s1; [contradiction|discriminate].
      * apply (Hsp l post). exact Et.
Qed.

Lemma validateId_accepted_witness :
  Forall (fun c => in_class (alnum_ranges
                               ++ [single " "; single "_"; single "-"]%char) c
                   = true) (str "peer-1 a")
  /\ forall pre post,
       str "peer-1 a" = pre ++ code " " :: post ->
       pre <> []
       /\ exists c rest, post = c :: rest /\ in_class alnum_ranges c = true.
Proof.
  apply (validateId_accepted (str "peer-1 a")). vm_compute. reflexivity.
Defined.

(** X6. [validateId] accepts every id made of a word of letters, digits,
    [_] and [-] that is not empty, followed by any number of words of
    letters and digits, not empty either, each after a single space. *)
Theorem validateId_words (first : jsstring) (others : list jsstring) :
  first <> [] ->
  Forall (fun c => in_class (alnum_ranges ++ [single "_"; single "-"]%char) c
                   = true) first ->
  Forall (fun w => w <> []
                   /\ Forall (fun c => in_class alnum_ranges c = true) w)
    others ->
  validateId (Some (first ++ concat (map (fun w => code " " :: w) others)))
  = true.
Proof.
  intros Hne Hfirst Hothers. unfold validateId.
  apply orb_true_iff. right. apply regex_exec_lang. unfold ID_REGEX.
  apply lang_Seq; [apply lang_Plus_Class; auto|].
  induction Hothers as [|w others [Hw Hall] _ IH]; cbn [map concat].
  - constructor.
  - apply lang_Star_cons; [|exact IH].
    apply (lang_Seq _ _ [code " "] w).
    + constructor. reflexivity.
    + apply lang_Plus_Class. auto.
Qed.

Lemma validateId_words_witness :
  validateId (Some (str "room_1" ++ concat (map (fun w => code " " :: w)
                                              [str "alice"; str "42"])))
  = true.
Proof.
  apply (validateId_words (str "room_1") [str "alice"; str "42"]).
  - discriminate.
  - repeat constructor.
  - repeat constructor; discriminate.
Defined.

(** ** [binaryStringToArrayBuffer] *)

(** The byte that the loop stores for the code unit [c]. *)
Lemma Uint8Array_store_next (written rest : list byte) (old v : byte) (k : nat) :
  length written = k ->
  Uint8Array_store (written ++ old :: rest) k v = written ++ v :: rest.
Proof.
  intros <-. induction written as [|b written IH]; cbn; [reflexivity|].
  rewrite IH. reflexivity.
Qed.

Lemma firstn_succ_nth {A : Type} (l : list A) (k : nat) (x : A) :
  nth_error l k = Some x -> firstn (S k) l = firstn k l ++ [x].
Proof.
  revert k. induction l as [|y l IH]; intros [|k] H; try discriminate.
  - injection H as ->. reflexivity.
  - cbn [nth_error] in H. cbn [firstn app]. f_equal. apply (IH k H).
Qed.

Lemma binaryString_loop (binary : jsstring) (k : nat) :
  (k <= length binary)%nat ->
  fold_left
    (fun byteArray i =>
       Uint8Array_store byteArray i (ToUint8 (js_and_ff (charCodeAt binary i))))
    (seq 0 k) (repeat x00 (length binary))
  = map (fun c => ToUint8 (Z.land (Z.of_N c) 255)) (firstn k binary)
      ++ repeat x00 (length binary - k).
Proof.
  induction k as [|k IH]; intros Hk.
  - cbn. rewrite Nat.sub_0_r. reflexivity.
  - rewrite seq_S, fold_left_app, IH by lia. cbn [fold_left Nat.add].
    destruct (nth_error binary k) as [c|] eqn:Hc;
      [|apply nth_error_None in Hc; lia].
    unfold charCodeAt. rewrite Hc. cbn [js_and_ff].
    rewrite (firstn_succ_nth _ _ _ Hc), map_app. cbn [map].
    replace (length binary - k)%nat with (S (length binary - S k)) by lia.
    cbn [repeat].
    rewrite Uint8Array_store_next by (rewrite length_map, length_firstn; lia).
    rewrite <- app_assoc. reflexivity.
Qed.

Lemma binaryStringToArrayBuffer_map (binary : jsstring) :
  binaryStringToArrayBuffer binary
  = map (fun c => ToUint8 (Z.land (Z.of_N c) 255)) binary.
Proof.
  unfold binaryStringToArrayBuffer, Uint8Array_new. rewrite Nat2Z.id.
  rewrite binaryString_loop by lia.
  rewrite firstn_all, Nat.sub_diag, app_nil_r. reflexivity.
Qed.

Lemma ToUint8_low_byte (c : N) :
  Byte.to_N (ToUint8 (Z.land (Z.of_N c) 255)) = (c mod 256)%N.
Proof.
  unfold ToUint8. change 255 with (Z.ones 8).
  rewrite Z.land_ones by lia. change (2 ^ 8) with 256.
  rewrite Z.mod_mod by lia.
  assert (Hmod : Z.to_N (Z.of_N c mod 256) = (c mod 256)%N).
  { rewrite <- (N2Z.id (c mod 256)). f_equal. rewrite N2Z.inj_mod. reflexivity. }
  rewrite Hmod.
  destruct (Byte.of_N (c mod 256)) as [b|] eqn:Hb.
  - apply Byte.to_of_N. exact Hb.
  - apply Byte.of_N_None_iff in Hb.
    pose proof (N.mod_upper_bound c 256 ltac:(discriminate)). lia.
Qed.

(** X7. [binaryStringToArrayBuffer] returns one byte per code unit of the
    string, in order, each being the low 8 bits of its code unit: what a
    code unit above 255 holds beyond them is dropped. *)
Theorem binaryStringToArrayBuffer_bytes (binary : jsstring) :
  length (binaryStringToArrayBuffer binary) = length binary
  /\ forall i c,
       nth_error binary i = Some c ->
       exists b,
         nth_error (binaryStringToArrayBuffer binary) i = Some b
         /\ Byte.to_N b = (c mod 256)%N.
Proof.
  rewrite binaryStringToArrayBuffer_map. split; [apply length_map|].
  intros i c Hc. eexists. split.
  - apply map_nth_error. exact Hc.
  - apply ToUint8_low_byte.
Qed.

Lemma binaryStringToArrayBuffer_bytes_witness :
  exists b,
    nth_error (binaryStringToArrayBuffer [65; 511; 256]%N) 1 = Some b
    /\ Byte.to_N b = (511 mod 256)%N.
Proof.
  apply (proj2 (binaryStringToArrayBuffer_bytes [65; 511; 256]%N) 1%nat 511%N).
  reflexivity.
Defined.

(** X8. Reading a blob as a binary string and converting the string with
    [binaryStringToArrayBuffer] gives back the bytes of the blob. *)
Theorem binaryString_roundtrip (blob : Blob) :
  binaryStringToArrayBuffer (blobToBinaryString blob) = blob.
Proof.
  rewrite binaryStringToArrayBuffer_map. unfold blobToBinaryString.
  rewrite map_map. rewrite <- (map_id blob) at 2. apply map_ext.
  intros b.
  assert (H : Byte.of_N (Byte.to_N (ToUint8 (Z.land (Z.of_N (Byte.to_N b)) 255)))
              = Byte.of_N (Byte.to_N b)).
  { rewrite ToUint8_low_byte. f_equal. apply N.mod_small.
    pose proof (Byte.to_N_bounded b). lia. }
  rewrite !Byte.of_to_N in H. injection H as H. exact H.
Qed.

(** ** [randomId] *)

Lemma in_firstn_in {A : Type} (n : nat) (l : list A) (x : A) :
  In x (firstn n l) -> In x l.
Proof.
  intros H. rewrite <- (firstn_skipn n l). apply in_or_app. left. exact H.
Qed.

Lemma in_skipn_in {A : Type} (n : nat) (l : list A) (x : A) :
  In x (skipn n l) -> In x l.
Proof.
  intros H. rewrite <- (firstn_skipn n l). apply in_or_app. right. exact H.
Qed.

(** X9. Whatever string [Math.random().toString(36)] returns, also one
    shorter than 18 characters, [randomId] returns exactly 16 characters,
    each of them a character of that string or the padding ["0"]. *)
Theorem randomId_length (randomString36 : jsstring) :
  length (randomId randomString36) = 16%nat
  /\ Forall (fun c => In c randomString36 \/ c = code "0")
       (randomId randomString36).
Proof.
  unfold randomId, substr. split.
  - rewrite length_firstn, length_skipn, length_app.
    change (length (str "0000000000000000000")) with 19%nat. lia.
  - apply Forall_forall. intros c Hin.
    apply in_firstn_in, in_skipn_in in Hin.
    apply in_app_or in Hin as [Hin|Hin]; [left; exact Hin|right].
    cbn in Hin. repeat (destruct Hin as [<-|Hin]; [reflexivity|]).
    destruct Hin.
Qed.

(** ** [parseInt] reads back the decimal form of an integer *)

Lemma is_digit_iff (c : N) : is_digit c = true <-> (48 <= c <= 57)%N.
Proof.
  unfold is_digit, in_range. cbn [fst snd].
  rewrite andb_true_iff, !N.leb_le. reflexivity.
Qed.

Lemma digit_cases (c : N) :
  is_digit c = true ->
  In c [48; 49; 50; 51; 52; 53; 54; 55; 56; 57]%N.
Proof.
  intros H. apply is_digit_iff in H. cbn [In].
  assert (c = 48 \/ c = 49 \/ c = 50 \/ c = 51 \/ c = 52 \/ c = 53 \/ c = 54
          \/ c = 55 \/ c = 56 \/ c = 57)%N by lia.
  intuition auto.
Qed.

Lemma take_digits_all (ds : jsstring) :
  Forall (fun c => is_digit c = true) ds -> take_digits ds = ds.
Proof.
  induction 1 as [|c ds Hc _ IH]; cbn [take_digits]; [reflexivity|].
  rewrite Hc, IH. reflexivity.
Qed.

Lemma decimal_digits_spec (fuel : nat) :
  forall n acc,
    0 <= n < 2 ^ (Z.of_nat fuel + 1) ->
    exists ds,
      decimal_digits fuel n acc = ds ++ acc
      /\ ds <> []
      /\ Forall (fun c => is_digit c = true) ds
      /\ forall a,
           fold_left (fun acc c => acc * 10 + (Z.of_N c - 48)) ds a
           = a * 10 ^ Z.of_nat (length ds) + n.
Proof.
  assert (Hlast : forall n acc, 0 <= n < 10 ->
            exists ds,
              (48 + Z.to_N (n mod 10))%N :: acc = ds ++ acc
              /\ ds <> []
              /\ Forall (fun c => is_digit c = true) ds
              /\ forall a,
                   fold_left (fun acc c => acc * 10 + (Z.of_N c - 48)) ds a
                   = a * 10 ^ Z.of_nat (length ds) + n).
  { intros n acc Hn. exists [(48 + Z.to_N (n mod 10))%N].
    rewrite Z.mod_small by lia.
    split; [reflexivity|]. split; [discriminate|]. split.
    - repeat constructor. apply is_digit_iff. lia.
    - intros a. cbn [fold_left length]. change (10 ^ Z.of_nat 1) with 10. lia. }
  induction fuel as [|fuel IH]; intros n acc Hn; cbn [decimal_digits].
  - apply Hlast. change (2 ^ (Z.of_nat 0 + 1)) with 2 in Hn. lia.
  - destruct (Z.ltb_spec n 10) as [Hsmall|Hbig]; [apply Hlast; lia|].
    assert (Hdiv : 0 <= n / 10 < 2 ^ (Z.of_nat fuel + 1)).
    { split; [apply Z.div_pos; lia|].
      apply Z.div_lt_upper_bound; [lia|].
      replace (Z.of_nat (S fuel) + 1) with (Z.succ (Z.of_nat fuel + 1)) in Hn
        by lia.
      rewrite Z.pow_succ_r in Hn by lia. lia. }
    destruct (IH (n / 10) ((48 + Z.to_N (n mod 10))%N :: acc) Hdiv)
      as (ds & Hds & Hne & Hall & Hval).
    exists (ds ++ [(48 + Z.to_N (n mod 10))%N]).
    pose proof (Z.mod_pos_bound n 10 ltac:(lia)) as Hmod.
    split; [rewrite Hds, <- app_assoc; reflexivity|].
    split; [destruct ds; discriminate|]. split.
    + apply Forall_app. split; [exact Hall|].
      repeat constructor. apply is_digit_iff. lia.
    + intros a. rewrite fold_left_app, Hval. cbn [fold_left].
      rewrite length_app, Nat2Z.inj_add. cbn [length].
      rewrite Z.pow_add_r by lia. change (10 ^ Z.of_nat 1) with 10.
      pose proof (Z.div_mod n 10 ltac:(lia)). lia.
Qed.

Lemma decimal_spec (n : Z) :
  0 <= n ->
  exists d ds,
    decimal n = d :: ds
    /\ Forall (fun c => is_digit c = true) (d :: ds)
    /\ digits_value (d :: ds) = n.
Proof.
  intros Hn. unfold decimal.
  destruct (decimal_digits_spec (Z.to_nat (Z.log2 n)) n []) as
    (ds & Hds & Hne & Hall & Hval).
  - split; [exact Hn|]. rewrite Z2Nat.id by apply Z.log2_nonneg.
    destruct (Z.eq_dec n 0) as [->|Hpos]; [reflexivity|].
    apply Z.log2_spec. lia.
  - rewrite app_nil_r in Hds. destruct ds as [|d ds]; [contradiction|].
    exists d, ds. split; [exact Hds|]. split; [exact Hall|].
    unfold digits_value. rewrite Hval. lia.
Qed.

Lemma parseInt_digits (d : N) (ds : jsstring) :
  Forall (fun c => is_digit c = true) (d :: ds) ->
  parseInt (d :: ds) = Fin (digits_value (d :: ds))
  /\ parseInt (45%N :: d :: ds) = Fin (- digits_value (d :: ds)).
Proof.
  intros Hall. pose proof (take_digits_all _ Hall) as Htake.
  inversion Hall as [|? ? Hd _]; subst.
  apply digit_cases in Hd. cbn [In] in Hd.
  unfold parseInt.
  repeat (destruct Hd as [<-|Hd];
          [cbn [trim_left is_whitespace in_class existsb in_range fst snd
                  N.leb N.compare Pos.compare Pos.compare_cont andb orb];
           rewrite Htake; split; f_equal; lia|]).
  destruct Hd.
Qed.

Lemma parseInt_ToString (z : Z) : parseInt (ToString_number (Fin z)) = Fin z.
Proof.
  unfold ToString_number. destruct (Z.ltb_spec z 0) as [Hneg|Hpos].
  - destruct (decimal_spec (- z) ltac:(lia)) as (d & ds & -> & Hall & Hval).
    rewrite (proj2 (parseInt_digits d ds Hall)), Hval. f_equal. lia.
  - destruct (decimal_spec z Hpos) as (d & ds & -> & Hall & Hval).
    rewrite (proj1 (parseInt_digits d ds Hall)), Hval. reflexivity.
Qed.

(** ** [setLogLevel] *)

(** The [switch] of lines 160 to 176. *)
Lemma setLogLevel_switch (debugLevel : number) (this : Util) :
  match debugLevel with
  | Fin 0 => set_logLevel (LogLevel_value "NONE") this
  | Fin 1 => set_logLevel (LogLevel_value "ERROR") this
  | Fin 2 => set_logLevel (LogLevel_value "WARN") this
  | Fin 3 => set_logLevel (LogLevel_value "FULL") this
  | _ => set_logLevel (LogLevel_value "NONE") this
  end
  = set_logLevel
      (match debugLevel with
       | Fin z => if (1 <=? z) && (z <=? 3) then z else 0
       | _ => 0
       end) this.
Proof.
  destruct debugLevel as [z| | |]; try reflexivity.
  destruct z as [|p|p]; try reflexivity.
  destruct p as [[p|p|]|[p|p|]|]; try reflexivity; destruct p; reflexivity.
Qed.



Lemma setLogLevel_integer (z : Z) (this : Util) :
  setLogLevel (level_number (Fin z)) this
  = Some (set_logLevel (if (1 <=? z) && (z <=? 3) then z else 0) this).
Proof.
  cbn [setLogLevel ToString_level]. rewrite parseInt_ToString.
  f_equal. apply (setLogLevel_switch (Fin z)).
Qed.

(** X11. Called with an integer, of a size that [ToString] writes in
    decimal, [setLogLevel] stores it when it is 1, 2 or 3 and stores 0, the
    level NONE, for every other integer: a level above 3 switches the log
    off. *)
Theorem setLogLevel_number (z : Z) (this : Util) :
  Z.abs z < 10 ^ 21 ->
  setLogLevel (level_number (Fin z)) this
  = Some (set_logLevel (if (1 <=? z) && (z <=? 3) then z else 0) this).
Proof.
  intros _. apply setLogLevel_integer.
Qed.

Lemma setLogLevel_number_witness :
  setLogLevel (level_number (Fin 4)) fresh
  = Some (set_logLevel (if (1 <=? 4) && (4 <=? 3) then 4 else 0) fresh).
Proof.
  apply (setLogLevel_number 4 fresh). vm_compute. reflexivity.
Defined.

(** X12. Called with an item of [LOG_LEVELS], [setLogLevel] stores the value
    of that item. *)
Theorem setLogLevel_item (key : string) (v : Z) (this : Util) :
  In (key, v) LogLevel ->
  setLogLevel (level_item key v) this = Some (set_logLevel v this).
Proof.
  intros Hin. cbn [In LogLevel] in Hin.
  destruct Hin as [[= <- <-]|[[= <- <-]|[[= <- <-]|[[= <- <-]|[]]]]];
    reflexivity.
Qed.

Lemma setLogLevel_item_witness :
  setLogLevel (level_item "WARN" 2) fresh = Some (set_logLevel 2 fresh).
Proof.
  apply (setLogLevel_item "WARN" 2 fresh). right. right. left. reflexivity.
Defined.

(** ** [warn], [error] and [log] *)

Lemma console_apply_grows {A : Type} (method : ConsoleMethod)
    (arguments : list A) (console : Console A) :
  console_apply method arguments console <> console.
Proof.
  unfold console_apply. intros H.
  apply (f_equal (@length _)) in H. rewrite length_app in H. cbn in H. lia.
Qed.

(** X13. The three log functions are nested: when [log] writes to the
    console so does [warn], and when [warn] writes so does [error].  A call
    that writes appends one console call, made of the prefix and then the
    caller's arguments in order, and none of them touches what the console
    received before. *)
Theorem log_nesting {A : Type} (this : Util) (arguments : list A)
    (console : Console A) :
  (log this arguments console <> console ->
   warn this arguments console <> console)
  /\ (warn this arguments console <> console ->
      error this arguments console <> console)
  /\ (log this arguments console = console
      \/ log this arguments console
         = console ++ [(console_log,
                        log_text LOG_PREFIX :: map log_arg arguments)])
  /\ (warn this arguments console = console
      \/ warn this arguments console
         = console ++ [(console_warn,
                        log_text LOG_PREFIX :: map log_arg arguments)])
  /\ (error this arguments console = console
      \/ error this arguments console
         = console ++ [(console_error,
                        log_text LOG_PREFIX :: map log_arg arguments)]).
Proof.
  unfold log, warn, error.
  change (LogLevel_value "FULL") with 3.
  change (LogLevel_value "WARN") with 2.
  change (LogLevel_value "ERROR") with 1.
  destruct (Z.leb_spec 3 (_logLevel this)), (Z.leb_spec 2 (_logLevel this)),
    (Z.leb_spec 1 (_logLevel this)); try lia;
    repeat match goal with
           | |- _ /\ _ => split
           | |- console_apply _ _ _ <> _ => apply console_apply_grows
           | H : ?c <> ?c |- _ => exfalso; apply H; reflexivity
           | |- ?x = ?x \/ _ => left; reflexivity
           | |- _ \/ _ => right; reflexivity
           | |- _ -> _ => intro
           end.
Qed.

Lemma log_nesting_witness :
  warn (set_logLevel 3 fresh) [1; 2] [] <> [].
Proof.
  apply (proj1 (log_nesting (set_logLevel 3 fresh) [1; 2] [])).
  vm_compute. discriminate.
Defined.

(** X14. After [setLogLevel(z)] with an integer [z], of a size that
    [ToString] writes in decimal, [error] writes for [z] from 1 to 3, [warn]
    for 2 and 3, [log] for 3 only, and for any other [z] none of them
    writes anything. *)
Theorem setLogLevel_then_log {A : Type} (z : Z) (this this' : Util)
    (arguments : list A) (console : Console A) :
  Z.abs z < 10 ^ 21 ->
  setLogLevel (level_number (Fin z)) this = Some this' ->
  error this' arguments console
  = (if (1 <=? z) && (z <=? 3)
     then console_apply console_error arguments console else console)
  /\ warn this' arguments console
     = (if (2 <=? z) && (z <=? 3)
        then console_apply console_warn arguments console else console)
  /\ log this' arguments console
     = (if z =? 3
        then console_apply console_log arguments console else console).
Proof.
  intros _. rewrite setLogLevel_integer. intros [= <-].
  unfold error, warn, log. cbn [_logLevel set_logLevel].
  change (LogLevel_value "FULL") with 3.
  change (LogLevel_value "WARN") with 2.
  change (LogLevel_value "ERROR") with 1.
  destruct (Z.leb_spec 1 z), (Z.leb_spec 2 z), (Z.leb_spec z 3),
    (Z.eqb_spec z 3); cbn [andb]; try lia; repeat split;
    repeat match goal with
           | |- context [?a <=? ?b] => destruct (Z.leb_spec a b); try lia
           end; reflexivity.
Qed.

Lemma setLogLevel_then_log_witness :
  error (set_logLevel 2 fresh) [7] []
  = (if (1 <=? 2) && (2 <=? 3)
     then console_apply console_error [7] [] else [])
  /\ warn (set_logLevel 2 fresh) [7] []
     = (if (2 <=? 2) && (2 <=? 3)
        then console_apply console_warn [7] [] else [])
  /\ log (set_logLevel 2 fresh) [7] []
     = (if 2 =? 3 then console_apply console_log [7] [] else []).
Proof.
  apply (setLogLevel_then_log 2 fresh (set_logLevel 2 fresh) [7] []).
  - vm_compute. reflexivity.
  - vm_compute. reflexivity.
Defined.
